(** * Server-sent event streaming: [internal/api/stream.go]

    A shallow embedding of the event generators, the content streamer
    ([contentStreamer.content]) and the wire writer ([stream]) of the
    dashboard API, with the properties of the streaming engine proved or
    refuted against it.

    - Go strings are byte sequences: [string]; [[]byte] is [list byte].
    - [http.ResponseWriter] is modelled by the log of the calls made on it.
    - Goroutines, the buffered channel, the timers and the context are
      modelled by an interleaving transition system whose labels name the
      goroutine that moves; a schedule is a list of labels. *)

From Stdlib Require Import ZArith Lia.
From Stdlib.Strings Require Import Ascii String Byte.
From stdpp Require Import base list strings gmap.

Local Open Scope string_scope.
Local Open Scope list_scope.

(** ** Bytes and strings *)

Definition LF : string := String "010"%char EmptyString.
Definition DQ : string := String "034"%char EmptyString.

(** [nonempty s] is the Go test of [s] against the empty string literal,
    as in [e.name != ...] at line 196. *)
Definition nonempty (s : string) : bool :=
  match s with
  | EmptyString => false
  | String _ _ => true
  end.

(** [string(b)] for [b []byte]: the same bytes, as a string. *)
Definition string_of_bytes (b : list byte) : string := string_of_list_byte b.
Definition bytes (s : string) : list byte := list_byte_of_string s.

(** ** Events (lines 172-175) *)

Record event := Event { name : string; data : list byte }.

(** ** [time.Duration]: nanoseconds *)

Definition Duration := Z.
Definition Second : Duration := 1000000000%Z.
Definition defaultEventTimeout : Duration := (5 * Second)%Z.

(** ** [http.ResponseWriter]

    The writer is observed through the calls made on it, oldest first.
    [isFlusher] is the outcome of the type assertion [w.(http.Flusher)]. *)

Inductive call :=
| HeaderSet (key value : string)
| WriteHeader (statusCode : Z)
| Write (p : string)
| Flush.

Record ResponseWriter := { isFlusher : bool; calls : list call }.

Definition invoke (c : call) (w : ResponseWriter) : ResponseWriter :=
  {| isFlusher := isFlusher w; calls := calls w ++ [c] |}.

(** The bytes of the response body: what [Write] received, in order. *)
Fixpoint body_of (cs : list call) : string :=
  match cs with
  | [] => EmptyString
  | Write p :: cs' => p +:+ body_of cs'
  | _ :: cs' => body_of cs'
  end.

(** The header map after the [Header().Set] calls ([Set] replaces). *)
Fixpoint header_of (cs : list call) (h : gmap string string) : gmap string string :=
  match cs with
  | [] => h
  | HeaderSet k v :: cs' => header_of cs' (<[k := v]> h)
  | _ :: cs' => header_of cs' h
  end.

(** The status codes passed to [WriteHeader]. *)
Fixpoint status_of (cs : list call) : list Z :=
  match cs with
  | [] => []
  | WriteHeader c :: cs' => c :: status_of cs'
  | _ :: cs' => status_of cs'
  end.

Definition is_HeaderSet (c : call) : bool :=
  match c with HeaderSet _ _ => true | _ => false end.

Definition body (w : ResponseWriter) : string := body_of (calls w).

(** [net/http]: status codes and [http.Error], which sets two headers,
    writes the status line and prints the message followed by a newline. *)

Definition StatusInternalServerError : Z := 500.
Definition StatusServiceUnavailable : Z := 503.

Definition http_Error (w : ResponseWriter) (error : string) (code : Z) : ResponseWriter :=
  let w := invoke (HeaderSet "Content-Type" "text/plain; charset=utf-8") w in
  let w := invoke (HeaderSet "X-Content-Type-Options" "nosniff") w in
  let w := invoke (WriteHeader code) w in
  invoke (Write (error +:+ LF)) w.

(** ** The wire writer [stream] (lines 177-203) *)

(** Lines 196-199: the bytes of one record. *)
Definition event_line (e : event) : string :=
  if nonempty (name e) then "event: " +:+ name e +:+ LF else EmptyString.
Definition data_line (e : event) : string :=
  "data: " +:+ string_of_bytes (data e) +:+ LF +:+ LF.
Definition encode (e : event) : string := event_line e +:+ data_line e.

(** Lines 196-200: the [case e := <-ch] branch. *)
Definition stream_event (w : ResponseWriter) (e : event) : ResponseWriter :=
  let w := if nonempty (name e)
           then invoke (Write ("event: " +:+ name e +:+ LF)) w
           else w in
  let w := invoke (Write ("data: " +:+ string_of_bytes (data e) +:+ LF +:+ LF)) w in
  invoke Flush w.

Definition sse_headers : list call :=
  [ HeaderSet "Content-Type" "text/event-stream";
    HeaderSet "Cache-Control" "no-cache";
    HeaderSet "Connection" "keep-alive";
    HeaderSet "Access-Control-Allow-Origin" "*" ].

(** Lines 178-187; the flag is [false] when [stream] returns before its
    loop. *)
Definition stream_begin (w : ResponseWriter) : ResponseWriter * bool :=
  if isFlusher w then
    let w := invoke (HeaderSet "Content-Type" "text/event-stream") w in
    let w := invoke (HeaderSet "Cache-Control" "no-cache") w in
    let w := invoke (HeaderSet "Connection" "keep-alive") w in
    let w := invoke (HeaderSet "Access-Control-Allow-Origin" "*") w in
    (w, true)
  else
    (http_Error w "server sent events are unsupported" StatusInternalServerError, false).

(** What one [select] of the loop at lines 191-202 picked. *)
Inductive selected :=
| CtxDone
| Received (e : event).

(** The loop, driven by the successive outcomes of its [select]; when the
    outcomes run out the loop is still blocked in [select]. *)
Fixpoint stream_loop (w : ResponseWriter) (sel : list selected) : ResponseWriter :=
  match sel with
  | [] => w
  | CtxDone :: _ => w
  | Received e :: sel' => stream_loop (stream_event w e) sel'
  end.

Definition stream (w : ResponseWriter) (sel : list selected) : ResponseWriter :=
  let '(w', isStreaming) := stream_begin w in
  if isStreaming then stream_loop w' sel else w'.

(** The calls a received event makes: one or two writes, then a flush. *)
Definition event_calls (e : event) : list call :=
  (if nonempty (name e) then [Write ("event: " +:+ name e +:+ LF)] else [])
  ++ [Write ("data: " +:+ string_of_bytes (data e) +:+ LF +:+ LF); Flush].

(** The events a run of the loop writes: those received before the
    first [CtxDone]. *)
Fixpoint written (sel : list selected) : list event :=
  match sel with
  | Received e :: sel' => e :: written sel'
  | _ => []
  end.

(** The calls of [http.Error] at line 180. *)
Definition unsupported_calls : list call :=
  [ HeaderSet "Content-Type" "text/plain; charset=utf-8";
    HeaderSet "X-Content-Type-Options" "nosniff";
    WriteHeader StatusInternalServerError;
    Write ("server sent events are unsupported" +:+ LF) ].

(** *** Record framing

    A blank line ends a record.  A record has a premature boundary when
    an empty line occurs in it before its last two bytes. *)

Definition premature_boundary (out : string) : Prop :=
  exists p s, s <> EmptyString /\ out = p +:+ LF +:+ LF +:+ s.

Definition starts_blank (s : string) : bool :=
  match s with
  | String a (String b (String _ _)) =>
      Ascii.eqb a "010"%char && Ascii.eqb b "010"%char
  | _ => false
  end.

Fixpoint blank_before_end (s : string) : bool :=
  match s with
  | EmptyString => false
  | String _ s' => starts_blank s || blank_before_end s'
  end.

(** The two events of the wire-format examples. *)
Definition navigation_event : event :=
  Event "navigation" (bytes ("{" +:+ DQ +:+ "sections" +:+ DQ +:+ ":[]}")).
Definition content_event : event :=
  Event EmptyString (bytes ("{" +:+ DQ +:+ "content" +:+ DQ +:+ ":{}}")).

(** A response writer on which nothing was called yet. *)
Definition fresh (flusher : bool) : ResponseWriter :=
  {| isFlusher := flusher; calls := [] |}.

(** ** Event generators (lines 21-26)

    An [eventGenerator] is used through its two methods only.  [Generate]
    may answer differently at every call, so it is indexed by the number
    of calls made before; an [error] is its message.  [RunEvery] is
    indexed by the number of [Generate] calls made so far. *)

Definition error := string.

Record eventGenerator := {
  Generate : nat -> event + error;
  RunEvery : nat -> Duration
}.

(** The two generators of the package.  Their collaborators (the content
    function, the navigation sections and [json.Marshal]) live outside this
    file of the source and are taken as parameters. *)
Section Generators.
Variables ContentResponse Sections : Type.
Variable dashResponse_Marshal : ContentResponse -> list byte + error.
Variable navigationResponse_Marshal : Sections -> list byte + error.

(** Lines 29-65.  [generatorFn] already closed over path, prefix and
    namespace. *)
Definition contentEventGenerator
    (generatorFn : nat -> ContentResponse + error) (runEvery : Duration)
    : eventGenerator :=
  {| Generate n :=
       match generatorFn n with
       | inr err => inr err
       | inl resp =>
           match dashResponse_Marshal resp with
           | inr err => inr err
           | inl data => inl (Event EmptyString data)
           end
       end;
     RunEvery _ := runEvery |}.

(** Lines 68-96. *)
Definition navigationEventGenerator
    (sections : nat -> Sections + error) : eventGenerator :=
  {| Generate n :=
       match sections n with
       | inr err => inr err
       | inl ns =>
           match navigationResponse_Marshal ns with
           | inr err => inr err
           | inl data => inl (Event "navigation" data)
           end
       end;
     RunEvery _ := (5 * Second)%Z |}.
End Generators.

(** ** The content streamer (lines 104-170) *)

(** The values of type [streamFn] that [stream.go] defines: [stream]. *)
Variant streamFn := stream_fn.

(** [log.Logger], observed through the messages it received. *)
Record Logger := { entries : list string }.

Definition Errorf (msg : string) (lg : Logger) : Logger :=
  {| entries := entries lg ++ [msg] |}.

(** A [nil] slice, function or interface value is [None]. *)
Record contentStreamer := {
  eventGenerators : option (list eventGenerator);
  w : ResponseWriter;
  streamFn_ : option streamFn;
  logger : option Logger
}.

(** [time.Timer]: running, expired with its value waiting in [timer.C],
    or expired and received (it stays so until [Reset]). *)
Inductive timer :=
| Armed (d : Duration)
| Fired
| Drained.

(** Where a scheduling goroutine (lines 130-161) stands. *)
Inductive task_pc :=
| AtSelect              (* line 136 *)
| AtSend (e : event)    (* line 150: ch <- e has not completed *)
| Exited.               (* the loop ended and wg.Done ran *)

Record task := {
  eg : eventGenerator;
  ncalls : nat;           (* Generate calls made *)
  tmr : timer;
  pc : task_pc
}.

(** Where the goroutine of [content] stands. *)
Inductive content_pc :=
| AtStream                      (* line 164, stream not entered yet *)
| InStreamLoop                  (* line 192, the select of stream *)
| AtWait                        (* line 166 *)
| Returned (err : option error). (* line 169 *)

Definition chCap : nat := 1.     (* make(chan event, 1) *)

Record state := {
  ctxDone : bool;                (* ctx.Done() is closed *)
  ch : list event;               (* the buffer of ch, oldest first *)
  chClosed : bool;
  tasks : list task;
  main : content_pc;
  rw : ResponseWriter;
  lg : Logger;
  panicked : bool                (* send on closed channel *)
}.

Definition is_Exited (t : task) : bool :=
  match pc t with Exited => true | _ => false end.

(** [wg.Wait()] returns once every goroutine ran [wg.Done()]. *)
Definition wg_zero (s : state) : bool := forallb is_Exited (tasks s).

Definition set_task (i : nat) (t : task) (s : state) : state :=
  {| ctxDone := ctxDone s; ch := ch s; chClosed := chClosed s;
     tasks := <[i := t]> (tasks s); main := main s; rw := rw s;
     lg := lg s; panicked := panicked s |}.

Definition set_main (m : content_pc) (s : state) : state :=
  {| ctxDone := ctxDone s; ch := ch s; chClosed := chClosed s;
     tasks := tasks s; main := m; rw := rw s;
     lg := lg s; panicked := panicked s |}.

Definition set_rw (x : ResponseWriter) (s : state) : state :=
  {| ctxDone := ctxDone s; ch := ch s; chClosed := chClosed s;
     tasks := tasks s; main := main s; rw := x;
     lg := lg s; panicked := panicked s |}.

Definition set_ch (q : list event) (s : state) : state :=
  {| ctxDone := ctxDone s; ch := q; chClosed := chClosed s;
     tasks := tasks s; main := main s; rw := rw s;
     lg := lg s; panicked := panicked s |}.

Definition set_lg (x : Logger) (s : state) : state :=
  {| ctxDone := ctxDone s; ch := ch s; chClosed := chClosed s;
     tasks := tasks s; main := main s; rw := rw s;
     lg := x; panicked := panicked s |}.

Definition cancel (s : state) : state :=
  {| ctxDone := true; ch := ch s; chClosed := chClosed s;
     tasks := tasks s; main := main s; rw := rw s;
     lg := lg s; panicked := panicked s |}.

Definition close_ch (s : state) : state :=
  {| ctxDone := ctxDone s; ch := ch s; chClosed := true;
     tasks := tasks s; main := main s; rw := rw s;
     lg := lg s; panicked := panicked s |}.

Definition panic (s : state) : state :=
  {| ctxDone := ctxDone s; ch := ch s; chClosed := chClosed s;
     tasks := tasks s; main := main s; rw := rw s;
     lg := lg s; panicked := true |}.

Definition with_tmr (x : timer) (t : task) : task :=
  {| eg := eg t; ncalls := ncalls t; tmr := x; pc := pc t |}.
Definition with_pc (x : task_pc) (t : task) : task :=
  {| eg := eg t; ncalls := ncalls t; tmr := tmr t; pc := x |}.
Definition called (t : task) : task :=
  {| eg := eg t; ncalls := S (ncalls t); tmr := tmr t; pc := pc t |}.

(** The atomic moves of the session.  [Cancel] is the environment
    cancelling [ctx]; [TimerFires i] is the runtime expiring the timer of
    goroutine [i]; the others are moves of the goroutines.  The model
    keeps no clock: a running timer expires at some later point, whatever
    its duration.  A [select] with several ready cases may take any of
    them; a buffered send and the receive that follows stand for a direct
    hand-over to a waiting receiver. *)
Inductive label :=
| Cancel
| TimerFires (i : nat)
| TaskDone (i : nat)     (* line 137: case <-ctx.Done() *)
| TaskTick (i : nat)     (* lines 139-148: case <-timer.C, Generate *)
| TaskSend (i : nat)     (* lines 150-157: ch <- e completes, RunEvery *)
| StreamBegin            (* lines 178-189 *)
| StreamDone             (* line 193: case <-ctx.Done() *)
| StreamRecv             (* lines 195-200: case e := <-ch *)
| WaitClose.             (* lines 166-169 *)

(** Lines 139-148, once [<-timer.C] was received: [break] leaves the
    [select] only, with the timer expired and not reset. *)
Definition tick (i : nat) (t : task) (s : state) : state :=
  let t' := called (with_tmr Drained t) in
  match Generate (eg t) (ncalls t) with
  | inr err =>
      set_task i t' (set_lg (Errorf ("event generator error: " +:+ err) (lg s)) s)
  | inl e => set_task i (with_pc (AtSend e) t') s
  end.

(** Lines 150-157, once [ch <- e] went through. *)
Definition sent (i : nat) (e : event) (t : task) (s : state) : state :=
  let s := set_ch (ch s ++ [e]) s in
  let nextTick := RunEvery (eg t) (ncalls t) in
  if (nextTick =? 0)%Z
  then set_task i (with_pc Exited t) s
  else set_task i (with_pc AtSelect (with_tmr (Armed nextTick) t)) s.

Definition step (l : label) (s : state) : option state :=
  if panicked s then None else
  match l with
  | Cancel => if ctxDone s then None else Some (cancel s)
  | TimerFires i =>
      match tasks s !! i with
      | Some t =>
          match pc t, tmr t with
          | AtSelect, Armed _ => Some (set_task i (with_tmr Fired t) s)
          | _, _ => None
          end
      | None => None
      end
  | TaskDone i =>
      match tasks s !! i with
      | Some t =>
          match pc t with
          | AtSelect =>
              if ctxDone s then Some (set_task i (with_pc Exited t) s) else None
          | _ => None
          end
      | None => None
      end
  | TaskTick i =>
      match tasks s !! i with
      | Some t =>
          match pc t, tmr t with
          | AtSelect, Fired => Some (tick i t s)
          | _, _ => None
          end
      | None => None
      end
  | TaskSend i =>
      match tasks s !! i with
      | Some t =>
          match pc t with
          | AtSend e =>
              if chClosed s then Some (panic s)
              else if (length (ch s) <? chCap)%nat then Some (sent i e t s)
              else None
          | _ => None
          end
      | None => None
      end
  | StreamBegin =>
      match main s with
      | AtStream =>
          let '(w', isStreaming) := stream_begin (rw s) in
          Some (set_main (if isStreaming then InStreamLoop else AtWait) (set_rw w' s))
      | _ => None
      end
  | StreamDone =>
      match main s with
      | InStreamLoop => if ctxDone s then Some (set_main AtWait s) else None
      | _ => None
      end
  | StreamRecv =>
      match main s, ch s with
      | InStreamLoop, e :: q => Some (set_rw (stream_event (rw s) e) (set_ch q s))
      | _, _ => None
      end
  | WaitClose =>
      match main s with
      | AtWait =>
          if wg_zero s then Some (set_main (Returned None) (close_ch s)) else None
      | _ => None
      end
  end.

(** Running a schedule; [None] when some move of it is not enabled. *)
Fixpoint run (sched : list label) (s : state) : option state :=
  match sched with
  | [] => Some s
  | l :: sched' =>
      match step l s with
      | Some s' => run sched' s'
      | None => None
      end
  end.

(** Lines 130-133: a goroutine starts at its [select] with a timer of 0. *)
Definition spawn (g : eventGenerator) : task :=
  {| eg := g; ncalls := 0; tmr := Armed 0%Z; pc := AtSelect |}.

(** Lines 111-129: the configuration checks, then one goroutine per
    generator.  [inl] is the error [content] returns at once. *)
Definition content (cs : contentStreamer) : error + state :=
  match eventGenerators cs with
  | None => inl "event generators are not configured"
  | Some egs =>
      match streamFn_ cs with
      | None => inl "stream function is not configured"
      | Some stream_fn =>
          match logger cs with
          | None => inl "logger is not configured"
          | Some l =>
              inr {| ctxDone := false; ch := []; chClosed := false;
                     tasks := spawn <$> egs; main := AtStream; rw := w cs;
                     lg := l; panicked := false |}
          end
      end
  end.

(** [content] on a valid configuration, then a schedule. *)
Definition exec (cs : contentStreamer) (sched : list label) : option state :=
  match content cs with
  | inl _ => None
  | inr s0 => run sched s0
  end.

(** The states a session can be in at some point of some execution. *)
Definition reachable (cs : contentStreamer) (s : state) : Prop :=
  exists sched, exec cs sched = Some s.

(** The goroutine of [content] is past [stream]. *)
Definition stream_over (s : state) : bool :=
  match main s with
  | AtStream | InStreamLoop => false
  | AtWait | Returned _ => true
  end.

Definition is_Returned (s : state) : bool :=
  match main s with Returned _ => true | _ => false end.

(** The response of a session is a response of [stream] on the writer
    the session started with, under some outcomes of its [select]. *)
Definition response_follows_stream (w0 : ResponseWriter) (s : state) : Prop :=
  match main s with
  | AtStream => rw s = w0
  | InStreamLoop =>
      isFlusher w0 = true /\ exists es, rw s = stream w0 (Received <$> es)
  | AtWait | Returned _ => exists sel, rw s = stream w0 sel
  end.

(** Goroutine [i] made [n] calls of [Generate], its timer has expired
    and was not reset, and it is at its [select] or has left through the
    cancellation case. *)
Definition stalled (i n : nat) (s : state) : Prop :=
  exists t, tasks s !! i = Some t /\ ncalls t = n /\ tmr t = Drained
            /\ (pc t = AtSelect \/ (pc t = Exited /\ ctxDone s = true)).

(** No move is enabled. *)
Definition stuck (s : state) : Prop := forall l, step l s = None.

(** *** Sessions used as examples *)

Definition always (e : event) (d : Duration) : eventGenerator :=
  {| Generate _ := inl e; RunEvery _ := d |}.

Definition failing (err : error) (d : Duration) : eventGenerator :=
  {| Generate _ := inr err; RunEvery _ := d |}.

Definition session (flusher : bool) (egs : option (list eventGenerator))
    : contentStreamer :=
  {| eventGenerators := egs; w := fresh flusher;
     streamFn_ := Some stream_fn; logger := Some {| entries := [] |} |}.

Definition ping : event := Event EmptyString (bytes "{}").

(** One generator that succeeds and runs once; the session shuts down
    cleanly under [clean_schedule]. *)
Definition clean_session : contentStreamer :=
  session true (Some [always ping 0%Z]).
Definition clean_schedule : list label :=
  [StreamBegin; TimerFires 0; TaskTick 0; TaskSend 0; StreamRecv;
   Cancel; StreamDone; WaitClose].

(** Two generators that succeed every five seconds.  Under
    [blocked_schedule] both have generated when [ctx] is cancelled. *)
Definition two_producers : contentStreamer :=
  session true (Some [always ping (5 * Second)%Z;
                      always navigation_event (5 * Second)%Z]).
Definition blocked_schedule : list label :=
  [StreamBegin; TimerFires 0; TaskTick 0; TimerFires 1; TaskTick 1;
   Cancel; StreamDone; TaskSend 0; TaskDone 0].

(** One event is in the queue when [ctx] is cancelled. *)
Definition one_producer : contentStreamer :=
  session true (Some [always ping (5 * Second)%Z]).
Definition queued_then_cancelled : list label :=
  [StreamBegin; TimerFires 0; TaskTick 0; TaskSend 0; Cancel].

(** A generator that fails, with interval [d]; its timer has expired. *)
Definition failing_session (d : Duration) : contentStreamer :=
  session true (Some [failing "boom" d]).
Definition first_tick_due : list label := [StreamBegin; TimerFires 0].

(** A configured but empty list of generators. *)
Definition empty_session : contentStreamer := session true (Some []).

(** ** Further notions on the wire format and on executions *)

(** The bytes of a sequence of records, in order. *)
Fixpoint records (es : list event) : string :=
  match es with
  | [] => EmptyString
  | e :: es' => encode e +:+ records es'
  end.

Definition is_Flush (c : call) : bool :=
  match c with Flush => true | _ => false end.
Definition is_body_Write (c : call) : bool :=
  match c with Write _ => true | _ => false end.

(** The events of a sequence that carry a name. *)
Definition named (es : list event) : list event :=
  List.filter (fun e => nonempty (name e)) es.

(** [s] holds a newline byte. *)
Fixpoint contains_LF (s : string) : bool :=
  match s with
  | EmptyString => false
  | String c s' => Ascii.eqb c "010"%char || contains_LF s'
  end.

(** What one move of the session can do to the goroutine it moves:
    the branches of lines 136-158.  The state is the one before the
    move. *)
Inductive task_move (s : state) (t : task) : task -> Prop :=
| move_fires (d : Duration) :
    pc t = AtSelect -> tmr t = Armed d ->
    task_move s t (with_tmr Fired t)
| move_done :
    pc t = AtSelect -> ctxDone s = true ->
    task_move s t (with_pc Exited t)
| move_tick_error (err : error) :
    pc t = AtSelect -> tmr t = Fired ->
    Generate (eg t) (ncalls t) = inr err ->
    task_move s t (called (with_tmr Drained t))
| move_tick_event (e : event) :
    pc t = AtSelect -> tmr t = Fired ->
    Generate (eg t) (ncalls t) = inl e ->
    task_move s t (with_pc (AtSend e) (called (with_tmr Drained t)))
| move_sent_exit (e : event) :
    pc t = AtSend e -> chClosed s = false ->
    RunEvery (eg t) (ncalls t) = 0%Z ->
    task_move s t (with_pc Exited t)
| move_sent_rearm (e : event) :
    pc t = AtSend e -> chClosed s = false ->
    RunEvery (eg t) (ncalls t) <> 0%Z ->
    task_move s t (with_pc AtSelect (with_tmr (Armed (RunEvery (eg t) (ncalls t))) t)).

(** The event a move puts into the channel, and the event a move takes
    out of it, as lists of at most one event. *)
Definition pushed_by (l : label) (s : state) : list event :=
  match l with
  | TaskSend i =>
      match tasks s !! i with
      | Some t =>
          match pc t with
          | AtSend e => if chClosed s then [] else [e]
          | _ => []
          end
      | None => []
      end
  | _ => []
  end.

Definition received_by (l : label) (s : state) : list event :=
  match l with
  | StreamRecv =>
      match ch s with
      | e :: _ => [e]
      | [] => []
      end
  | _ => []
  end.

(** The events pushed and received along a schedule, in order. *)
Fixpoint pushes (sched : list label) (s : state) : list event :=
  match sched with
  | [] => []
  | l :: sched' =>
      match step l s with
      | Some s' => pushed_by l s ++ pushes sched' s'
      | None => []
      end
  end.

Fixpoint receipts (sched : list label) (s : state) : list event :=
  match sched with
  | [] => []
  | l :: sched' =>
      match step l s with
      | Some s' => received_by l s ++ receipts sched' s'
      | None => []
      end
  end.

(** Generators by their interval and by their outcomes. *)
Definition runs_once (g : eventGenerator) : Prop := forall n, RunEvery g n = 0%Z.
Definition repeats (g : eventGenerator) : Prop := forall n, RunEvery g n <> 0%Z.
Definition always_fails (g : eventGenerator) : Prop :=
  forall n, exists err, Generate g n = inr err.

(** A goroutine that has not called [Generate] and is not sending, or
    has called it once and has not reset its timer since. *)
Definition called_at_most_once (t : task) : Prop :=
  (ncalls t = 0%nat /\ forall e, pc t <> AtSend e)
  \/ (ncalls t = 1%nat /\ tmr t = Drained).

(** A goroutine of one of the generators [egs], sending, if it is
    sending, an event its generator returned. *)
Definition sends_generated (egs : list eventGenerator) (t : task) : Prop :=
  eg t ∈ egs
  /\ forall e, pc t = AtSend e -> exists n, Generate (eg t) n = inl e.

(** The writer is in its loop, over a session that is intact. *)
Definition draining (s : state) : Prop :=
  main s = InStreamLoop /\ panicked s = false /\ chClosed s = false
  /\ (length (ch s) <= chCap)%nat.

(** The message logged at line 142 for an error. *)
Definition error_entry (err : error) : string :=
  "event generator error: " +:+ err.

(** The goroutine a move belongs to, for the moves of lines 130-161. *)
Definition mover (l : label) : option nat :=
  match l with
  | TimerFires i | TaskDone i | TaskTick i | TaskSend i => Some i
  | _ => None
  end.
(** * Properties *)

(** ** Strings and call logs *)

Lemma append_nil_l (b : string) : EmptyString +:+ b = b.
Proof. reflexivity. Qed.

Lemma append_cons (x : ascii) (a b : string) :
  String x a +:+ b = String x (a +:+ b).
Proof. reflexivity. Qed.

Lemma append_assoc (a b c : string) : (a +:+ b) +:+ c = a +:+ (b +:+ c).
Proof.
  induction a as [|x a IH]; [reflexivity |].
  now rewrite !append_cons, IH.
Qed.

Lemma append_nil_r (a : string) : a +:+ EmptyString = a.
Proof.
  induction a as [|x a IH]; [reflexivity |].
  now rewrite append_cons, IH.
Qed.

Lemma string_of_bytes_app (a b : list byte) :
  string_of_bytes (a ++ b) = string_of_bytes a +:+ string_of_bytes b.
Proof.
  unfold string_of_bytes.
  induction a as [|x a IH]; [reflexivity |].
  change (String (ascii_of_byte x) (string_of_list_byte (a ++ b))
          = String (ascii_of_byte x) (string_of_list_byte a) +:+ string_of_list_byte b).
  now rewrite append_cons, IH.
Qed.

Lemma body_of_app (a b : list call) : body_of (a ++ b) = body_of a +:+ body_of b.
Proof.
  induction a as [|c a IH]; simpl; [reflexivity |].
  destruct c; simpl; rewrite IH; try reflexivity.
  symmetry. apply append_assoc.
Qed.

Lemma body_invoke_Write (p : string) (x : ResponseWriter) :
  body (invoke (Write p) x) = body x +:+ p.
Proof. unfold body, invoke; simpl. rewrite body_of_app. simpl. now rewrite append_nil_r. Qed.

Lemma body_invoke_Flush (x : ResponseWriter) : body (invoke Flush x) = body x.
Proof. unfold body, invoke; simpl. rewrite body_of_app. simpl. apply append_nil_r. Qed.

(** One received event adds exactly its record to the body. *)
Lemma body_stream_event (x : ResponseWriter) (e : event) :
  body (stream_event x e) = body x +:+ encode e.
Proof.
  unfold stream_event, encode, event_line, data_line.
  rewrite body_invoke_Flush, body_invoke_Write.
  destruct (nonempty (name e)).
  - rewrite body_invoke_Write. now rewrite !append_assoc.
  - reflexivity.
Qed.

Lemma calls_stream_event (x : ResponseWriter) (e : event) :
  calls (stream_event x e) = calls x ++ event_calls e.
Proof.
  unfold stream_event, event_calls, invoke; simpl.
  destruct (nonempty (name e)); simpl; now rewrite <- ?app_assoc.
Qed.

Lemma calls_stream_loop (sel : list selected) (x : ResponseWriter) :
  calls (stream_loop x sel) = calls x ++ concat (event_calls <$> written sel).
Proof.
  revert x. induction sel as [|[|e] sel IH]; intros x; simpl.
  - now rewrite app_nil_r.
  - now rewrite app_nil_r.
  - rewrite IH, calls_stream_event. now rewrite <- app_assoc.
Qed.

Lemma event_calls_no_header (e : event) :
  Forall (fun c => is_HeaderSet c = false) (event_calls e).
Proof.
  unfold event_calls. destruct (nonempty (name e)); simpl; repeat constructor.
Qed.

Lemma written_calls_no_header (es : list event) :
  Forall (fun c => is_HeaderSet c = false) (concat (event_calls <$> es)).
Proof.
  induction es as [|e es IH]; simpl; [constructor |].
  apply Forall_app. split; [apply event_calls_no_header | exact IH].
Qed.

Lemma header_of_no_header (cs : list call) (h : gmap string string) :
  Forall (fun c => is_HeaderSet c = false) cs -> header_of cs h = h.
Proof.
  induction 1 as [|c cs Hc _ IH]; simpl; [reflexivity |].
  destruct c; simpl in Hc; try discriminate; exact IH.
Qed.

Lemma header_of_app (a b : list call) (h : gmap string string) :
  header_of (a ++ b) h = header_of b (header_of a h).
Proof.
  revert h. induction a as [|c a IH]; intros h; simpl; [reflexivity |].
  destruct c; apply IH.
Qed.

Lemma filter_no_header (cs : list call) :
  Forall (fun c => is_HeaderSet c = false) cs -> List.filter is_HeaderSet cs = [].
Proof.
  induction 1 as [|c cs Hc _ IH]; simpl; [reflexivity |].
  now rewrite Hc.
Qed.

(** [stream] on a flusher: the four header calls, then the records. *)
Lemma calls_stream_flusher (cs0 : list call) (sel : list selected) :
  calls (stream {| isFlusher := true; calls := cs0 |} sel)
  = cs0 ++ sse_headers ++ concat (event_calls <$> written sel).
Proof.
  unfold stream, stream_begin; simpl.
  rewrite calls_stream_loop; simpl.
  now rewrite <- !app_assoc.
Qed.

(** [stream] without a flusher: the calls of [http.Error], and no loop. *)
Lemma calls_stream_no_flusher (cs0 : list call) (sel : list selected) :
  calls (stream {| isFlusher := false; calls := cs0 |} sel)
  = cs0 ++ unsupported_calls.
Proof.
  unfold stream, stream_begin, http_Error; simpl.
  now rewrite <- !app_assoc.
Qed.

(** ** The wire format *)

(** C5. Encoding the event named navigation with payload
    [{"sections":[]}] writes exactly the event line, the data line and a
    blank line; encoding the unnamed event with payload [{"content":{}}]
    writes exactly the data line and a blank line; for every event the
    event line is written when its name is not empty and only then, and
    the record ends with the data line followed by a blank line. *)
Theorem C5_wire_encoding :
  body (stream (fresh true) [Received navigation_event])
  = "event: navigation" +:+ LF
    +:+ "data: {" +:+ DQ +:+ "sections" +:+ DQ +:+ ":[]}" +:+ LF +:+ LF
  /\ body (stream (fresh true) [Received content_event])
     = "data: {" +:+ DQ +:+ "content" +:+ DQ +:+ ":{}}" +:+ LF +:+ LF
  /\ (forall x d,
        calls (stream_event x (Event EmptyString d))
        = calls x ++ [Write ("data: " +:+ string_of_bytes d +:+ LF +:+ LF); Flush])
  /\ (forall x c nm d,
        calls (stream_event x (Event (String c nm) d))
        = calls x ++ [Write ("event: " +:+ String c nm +:+ LF);
                      Write ("data: " +:+ string_of_bytes d +:+ LF +:+ LF); Flush])
  /\ (forall x e,
        body (stream_event x e)
        = body x +:+ (if nonempty (name e) then "event: " +:+ name e +:+ LF
                      else EmptyString)
                 +:+ "data: " +:+ string_of_bytes (data e) +:+ LF +:+ LF).
Proof.
  split; [reflexivity |].
  split; [reflexivity |].
  split; [intros x d; now rewrite calls_stream_event |].
  split.
  - intros x c nm d. now rewrite calls_stream_event.
  - intros x e. apply body_stream_event.
Qed.

(** C9. On a sink that can flush, the writer sets the four headers
    Content-Type: text/event-stream, Cache-Control: no-cache,
    Connection: keep-alive and Access-Control-Allow-Origin: *, once each,
    before any byte of body: its calls are these four, followed by calls
    that set no header, and nothing is written to the body by the
    four. *)
Theorem C9_headers_once_before_body :
  forall (cs0 : list call) (sel : list selected),
    let out := stream {| isFlusher := true; calls := cs0 |} sel in
    exists rest,
      calls out = cs0 ++ sse_headers ++ rest
      /\ Forall (fun c => is_HeaderSet c = false) rest
      /\ List.filter is_HeaderSet (sse_headers ++ rest) = sse_headers
      /\ body_of (cs0 ++ sse_headers) = body_of cs0
      /\ header_of (sse_headers ++ rest) ∅
         = <["Access-Control-Allow-Origin" := "*"]>
             (<["Connection" := "keep-alive"]>
                (<["Cache-Control" := "no-cache"]>
                   (<["Content-Type" := "text/event-stream"]> ∅))).
Proof.
  intros cs0 sel out.
  exists (concat (event_calls <$> written sel)).
  pose proof (written_calls_no_header (written sel)) as Hrest.
  split; [apply calls_stream_flusher |].
  split; [exact Hrest |].
  split; [simpl; now rewrite filter_no_header |].
  split.
  - rewrite body_of_app. simpl. apply append_nil_r.
  - rewrite header_of_app. now rewrite header_of_no_header.
Qed.

(** C3, as the code has it. On a sink that cannot flush, the writer
    answers through [http.Error]: status 500 (internal server error), a
    body that is the message "server sent events are unsupported" and a
    newline, and nothing else; whatever is in the queue, no event is
    written. *)
Theorem C3_unsupported_sink :
  forall (cs0 : list call) (sel : list selected),
    let out := stream {| isFlusher := false; calls := cs0 |} sel in
    calls out = cs0 ++ unsupported_calls
    /\ status_of (calls out) = status_of cs0 ++ [StatusInternalServerError]
    /\ body out = body_of cs0 +:+ "server sent events are unsupported" +:+ LF.
Proof.
  intros cs0 sel out.
  assert (Hc : calls out = cs0 ++ unsupported_calls) by apply calls_stream_no_flusher.
  split; [exact Hc |].
  split.
  - rewrite Hc. clear. induction cs0 as [|c cs0 IH]; [reflexivity |].
    destruct c; simpl; now rewrite ?IH.
  - unfold body. rewrite Hc, body_of_app. reflexivity.
Qed.

(** C3 fails as stated: on a fresh sink that cannot flush the status is
    500, not 503, and the body has 35 bytes, not none. *)
Lemma C3_status_and_body_counterexample :
  let out := stream (fresh false) [] in
  status_of (calls out) = [500%Z]
  /\ String.length (body out) = 35%nat
  /\ ~ (status_of (calls out) = [StatusServiceUnavailable]
        \/ body out = EmptyString).
Proof.
  split; [reflexivity |].
  split; [reflexivity |].
  intros [H | H]; vm_compute in H; discriminate H.
Qed.

(** ** Framing *)

Lemma premature_boundary_blank (out : string) :
  premature_boundary out -> blank_before_end out = true.
Proof.
  intros (p & s & Hs & ->).
  induction p as [|x p IH].
  - destruct s as [|c s]; [congruence | reflexivity].
  - rewrite append_cons.
    change (starts_blank (String x (p +:+ LF +:+ LF +:+ s))
            || blank_before_end (p +:+ LF +:+ LF +:+ s) = true).
    rewrite IH. apply orb_true_r.
Qed.

Lemma nonempty_with_LF (a b : string) : nonempty (a +:+ LF +:+ b) = true.
Proof. destruct a; reflexivity. Qed.

(** C10, as the code has it. Name and payload go to the wire unchanged.
    A newline byte in the payload puts a line break inside the data
    field, and a newline in the name puts one inside the event field.
    The record has a premature blank-line boundary when the payload
    holds two newline bytes in a row or ends with a newline byte. *)
Theorem C10_verbatim_no_escaping :
  (forall x e,
     body (stream_event x e)
     = body x +:+ (if nonempty (name e) then "event: " +:+ name e +:+ LF
                   else EmptyString)
              +:+ "data: " +:+ string_of_bytes (data e) +:+ LF +:+ LF)
  /\ (forall nm a b,
        encode (Event nm (a ++ [x0a] ++ b))
        = (if nonempty nm then "event: " +:+ nm +:+ LF else EmptyString)
          +:+ "data: " +:+ string_of_bytes a +:+ LF
          +:+ string_of_bytes b +:+ LF +:+ LF)
  /\ (forall n1 n2 d,
        encode (Event (n1 +:+ LF +:+ n2) d)
        = "event: " +:+ n1 +:+ LF +:+ n2 +:+ LF
          +:+ "data: " +:+ string_of_bytes d +:+ LF +:+ LF)
  /\ (forall nm a b, premature_boundary (encode (Event nm (a ++ [x0a; x0a] ++ b))))
  /\ (forall nm a, premature_boundary (encode (Event nm (a ++ [x0a])))).
Proof.
  split; [intros x e; apply body_stream_event |].
  split.
  { intros nm a b. unfold encode, event_line, data_line; simpl name; simpl data.
    rewrite !string_of_bytes_app.
    change (string_of_bytes [x0a]) with LF.
    now rewrite !append_assoc. }
  split.
  { intros n1 n2 d. unfold encode, event_line, data_line; simpl name; simpl data.
    rewrite nonempty_with_LF. now rewrite !append_assoc. }
  split.
  - intros nm a b.
    exists (event_line (Event nm (a ++ [x0a; x0a] ++ b)) +:+ "data: " +:+ string_of_bytes a).
    exists (string_of_bytes b +:+ LF +:+ LF).
    split; [destruct (string_of_bytes b); discriminate |].
    unfold encode, data_line; simpl data.
    rewrite !string_of_bytes_app.
    change (string_of_bytes [x0a; x0a]) with (LF +:+ LF).
    now rewrite !append_assoc.
  - intros nm a.
    exists (event_line (Event nm (a ++ [x0a])) +:+ "data: " +:+ string_of_bytes a).
    exists LF.
    split; [discriminate |].
    unfold encode, data_line; simpl data.
    rewrite !string_of_bytes_app.
    change (string_of_bytes [x0a]) with LF.
    now rewrite !append_assoc.
Qed.

(** C10 fails as stated: the payload a, newline, b holds a newline byte,
    and its record has no blank line before its end. *)
Lemma C10_single_newline_counterexample :
  let e := Event EmptyString (bytes ("a" +:+ LF +:+ "b")) in
  x0a ∈ data e
  /\ encode e = "data: a" +:+ LF +:+ "b" +:+ LF +:+ LF
  /\ ~ premature_boundary (encode e).
Proof.
  split; [vm_compute; apply list_elem_of_In; simpl; tauto |].
  split; [reflexivity |].
  intros H. apply premature_boundary_blank in H.
  vm_compute in H. discriminate H.
Qed.

(** ** The session as a transition system *)

Ltac step_inv H :=
  unfold step in H;
  repeat match type of H with
         | context [match ?x with _ => _ end] =>
             destruct x eqn:?; try discriminate H
         end;
  try (injection H as <-).

(** A property kept by every move holds along every schedule. *)
Lemma run_invariant (P : state -> Prop) :
  (forall l s s', P s -> step l s = Some s' -> P s') ->
  forall sched s s', P s -> run sched s = Some s' -> P s'.
Proof.
  intros Hstep sched. induction sched as [|l sched IH]; intros s s' HP Hrun; simpl in Hrun.
  - now injection Hrun as <-.
  - destruct (step l s) as [s1|] eqn:Hs; [| discriminate].
    eapply IH; [| exact Hrun]. eapply Hstep; eauto.
Qed.

Lemma wg_zero_lookup (s : state) (i : nat) (t : task) :
  wg_zero s = true -> tasks s !! i = Some t -> pc t = Exited.
Proof.
  unfold wg_zero. rewrite forallb_forall. intros Hall Hl.
  assert (Hin : In t (tasks s)).
  { apply list_elem_of_In. eapply list_elem_of_lookup_2. exact Hl. }
  specialize (Hall t Hin). unfold is_Exited in Hall.
  destruct (pc t); [discriminate | discriminate | reflexivity].
Qed.

(** The channel is closed only by a returned [content], after every
    goroutine ran [wg.Done]; no send ever found the channel closed. *)
Definition shutdown_ordered (s : state) : Prop :=
  panicked s = false
  /\ (chClosed s = true -> wg_zero s = true /\ main s = Returned None)
  /\ (is_Returned s = true -> chClosed s = true).

Lemma shutdown_ordered_init (cs : contentStreamer) (s0 : state) :
  content cs = inr s0 -> shutdown_ordered s0.
Proof.
  unfold content. intros H.
  destruct (eventGenerators cs); [| discriminate].
  destruct (streamFn_ cs) as [[]|]; [| discriminate].
  destruct (logger cs); [| discriminate].
  injection H as <-. repeat split; simpl; discriminate.
Qed.

Lemma shutdown_ordered_step (l : label) (s s' : state) :
  shutdown_ordered s -> step l s = Some s' -> shutdown_ordered s'.
Proof.
  intros (Hp & Hc & Hr) H.
  destruct (chClosed s) eqn:Hcl.
  - (* closed: every goroutine exited and content returned *)
    destruct (Hc eq_refl) as [Hz Hm].
    step_inv H;
      try match goal with
          | Ht : tasks s !! _ = Some ?t, Hpc : pc ?t = _ |- _ =>
              rewrite (wg_zero_lookup _ _ _ Hz Ht) in Hpc; discriminate Hpc
          end;
      try congruence.
    repeat split; simpl; auto.
  - (* open: only WaitClose closes, and it returns *)
    unfold is_Returned in Hr.
    step_inv H; unfold shutdown_ordered, is_Returned, tick, sent;
      repeat (simpl;
              match goal with
              | |- context [match ?x with _ => _ end] => destruct x eqn:?
              end);
      simpl in *; repeat split; intros; try congruence; auto;
      try discriminate (Hr eq_refl);
      match goal with
      | Hm : main s = _ |- _ => rewrite Hm in Hr; discriminate (Hr eq_refl)
      end.
Qed.

Lemma exec_inr (cs : contentStreamer) (sched : list label) (s : state) :
  exec cs sched = Some s ->
  exists s0, content cs = inr s0 /\ run sched s0 = Some s.
Proof.
  unfold exec. destruct (content cs) as [msg | s0]; [discriminate |].
  intros H. now exists s0.
Qed.

Lemma reachable_shutdown_ordered (cs : contentStreamer) (s : state) :
  reachable cs s -> shutdown_ordered s.
Proof.
  intros [sched H]. apply exec_inr in H as (s0 & H0 & Hrun).
  eapply (run_invariant shutdown_ordered); eauto using shutdown_ordered_step.
  eapply shutdown_ordered_init; eauto.
Qed.

(** [content] returns nil, after closing the channel. *)
Lemma returned_nil (cs : contentStreamer) (s : state) (err : option error) :
  reachable cs s -> main s = Returned err ->
  err = None /\ chClosed s = true /\ wg_zero s = true.
Proof.
  intros Hr Hm.
  destruct (reachable_shutdown_ordered _ _ Hr) as (Hp & Hc & Hret).
  assert (Hcl : chClosed s = true) by (apply Hret; unfold is_Returned; now rewrite Hm).
  destruct (Hc Hcl) as [Hz Hm']. rewrite Hm in Hm'. injection Hm' as ->. auto.
Qed.

(** The only move that closes the channel. *)
Lemma closing_step (l : label) (s s' : state) :
  step l s = Some s' -> chClosed s = false -> chClosed s' = true ->
  l = WaitClose /\ main s = AtWait /\ wg_zero s = true /\ main s' = Returned None.
Proof.
  intros H Hc Hc'.
  step_inv H; unfold tick, sent in Hc';
    repeat match type of Hc' with
           | context [match ?x with _ => _ end] => destruct x eqn:?
           end;
    simpl in Hc'; try congruence.
  repeat split; auto.
Qed.

(** C6. In every state a session reaches: no send found the channel
    closed; if the channel is closed then every scheduling goroutine has
    terminated and [content] has returned nil; [content] returns nil
    only, with the channel closed after all goroutines terminated; a
    send is not enabled on the closed channel; and the channel is closed
    by the move that follows [wg.Wait], after [stream] returned. *)
Theorem C6_close_after_all_tasks :
  forall cs s,
    reachable cs s ->
    panicked s = false
    /\ (chClosed s = true -> wg_zero s = true /\ main s = Returned None)
    /\ (forall err, main s = Returned err ->
          err = None /\ chClosed s = true /\ wg_zero s = true)
    /\ (forall i, chClosed s = true -> step (TaskSend i) s = None)
    /\ (forall l s', step l s = Some s' -> chClosed s = false -> chClosed s' = true ->
          l = WaitClose /\ main s = AtWait /\ wg_zero s = true
          /\ main s' = Returned None).
Proof.
  intros cs s Hr.
  destruct (reachable_shutdown_ordered _ _ Hr) as (Hp & Hc & Hret).
  split; [exact Hp |].
  split; [exact Hc |].
  split.
  { intros err. now apply returned_nil with (cs := cs). }
  split.
  { intros i Hcl. destruct (Hc Hcl) as [Hz _].
    unfold step. rewrite Hp.
    destruct (tasks s !! i) as [t|] eqn:Ht; [| reflexivity].
    now rewrite (wg_zero_lookup _ _ _ Hz Ht). }
  intros l s'. apply closing_step.
Qed.

(** A session that shuts down cleanly, as the theorem describes. *)
Lemma C6_clean_shutdown_witness :
  exists s,
    exec clean_session clean_schedule = Some s
    /\ main s = Returned None
    /\ panicked s = false
    /\ (chClosed s = true -> wg_zero s = true /\ main s = Returned None).
Proof.
  eexists. split; [reflexivity |]. split; [reflexivity |].
  match goal with
  | |- panicked ?s = false /\ _ =>
      destruct (C6_close_after_all_tasks clean_session s) as (Hp & Hc & _)
  end.
  - exists clean_schedule. reflexivity.
  - split; [exact Hp | exact Hc].
Defined.

(** ** Configuration *)

(** C4, as the code has it. [content] returns a configuration error at
    once, with no goroutine started, exactly when the generator list, the
    stream function or the logger is nil; a configured list passes the
    check even when it is empty; otherwise one goroutine per generator is
    started, and the only value [content] returns afterwards is nil. *)
Theorem C4_configuration_checked :
  forall cs,
    ((exists msg, content cs = inl msg)
     <-> eventGenerators cs = None \/ streamFn_ cs = None \/ logger cs = None)
    /\ (forall msg, content cs = inl msg ->
          msg = "event generators are not configured"
          \/ msg = "stream function is not configured"
          \/ msg = "logger is not configured")
    /\ (forall s0, content cs = inr s0 ->
          exists egs, eventGenerators cs = Some egs
                      /\ tasks s0 = spawn <$> egs
                      /\ main s0 = AtStream)
    /\ (forall s err, reachable cs s -> main s = Returned err -> err = None).
Proof.
  intros cs. unfold content.
  destruct (eventGenerators cs) as [egs|] eqn:He;
    [destruct (streamFn_ cs) as [[]|] eqn:Hs;
     [destruct (logger cs) as [l|] eqn:Hl |] |].
  all: split; [split; [intros [msg H]; try discriminate H; auto
                      | intros [H | [H | H]]; try discriminate H; eauto] |].
  all: split; [intros msg H; try discriminate H; injection H as <-; auto |].
  all: split; [intros s0 H; try discriminate H; injection H as <-; eauto |].
  all: intros s err Hr Hm; now destruct (returned_nil cs s err Hr Hm).
Qed.

(** C4 fails as stated: with a configured but empty generator list
    [content] reports no configuration error and starts no goroutine. *)
Lemma C4_empty_list_counterexample :
  eventGenerators empty_session = Some []
  /\ exists s0, content empty_session = inr s0 /\ tasks s0 = [] /\ main s0 = AtStream.
Proof.
  split; [reflexivity |].
  eexists. split; [reflexivity |]. split; reflexivity.
Qed.

(** ** Cancellation and the writer *)

(** Once [stream] returned, nothing is called on the response writer. *)
Lemma stream_over_step (l : label) (s s' : state) :
  stream_over s = true -> step l s = Some s' ->
  stream_over s' = true /\ rw s' = rw s.
Proof.
  unfold stream_over. intros Ho H.
  step_inv H; unfold tick, sent;
    repeat (simpl;
            match goal with
            | |- context [match ?x with _ => _ end] => destruct x eqn:?
            end);
    simpl in *; try discriminate; try congruence; auto;
    match goal with
    | Hm : main s = _ |- _ => rewrite Hm in Ho; discriminate Ho
    end.
Qed.

Lemma stream_over_run (sched : list label) (s s' : state) :
  stream_over s = true -> run sched s = Some s' -> rw s' = rw s.
Proof.
  intros Ho Hrun.
  apply (run_invariant (fun x => stream_over x = true /\ rw x = rw s))
    with (sched := sched) (s := s) (s' := s'); auto.
  intros l x x' [Hx Hw] Hstep.
  destruct (stream_over_step _ _ _ Hx Hstep) as [Hx' Hw'].
  split; [exact Hx' | congruence].
Qed.

(** C8, as the code has it. When [ctx] is cancelled while the writer is
    at its [select], leaving the loop is enabled whatever the queue
    holds; it leaves the queue and the response as they are, and after
    it nothing more is ever written to the response. *)
Theorem C8_cancelled_loop_may_exit :
  forall cs s,
    reachable cs s -> main s = InStreamLoop -> ctxDone s = true ->
    exists s1,
      step StreamDone s = Some s1
      /\ main s1 = AtWait /\ ch s1 = ch s /\ rw s1 = rw s
      /\ forall sched s2, run sched s1 = Some s2 -> rw s2 = rw s.
Proof.
  intros cs s Hr Hm Hd.
  destruct (reachable_shutdown_ordered _ _ Hr) as (Hp & _).
  exists (set_main AtWait s).
  split; [unfold step; now rewrite Hp, Hm, Hd |].
  repeat split.
  intros sched s2 Hrun.
  now apply stream_over_run in Hrun.
Qed.

(** The loop can exit with an event left in the queue. *)
Lemma C8_exit_with_queued_event_witness :
  exists s s1,
    exec one_producer queued_then_cancelled = Some s
    /\ ch s = [ping]
    /\ step StreamDone s = Some s1
    /\ main s1 = AtWait /\ ch s1 = ch s /\ rw s1 = rw s
    /\ forall sched s2, run sched s1 = Some s2 -> rw s2 = rw s.
Proof.
  eexists. 
  match goal with
  | |- exists s1, exec _ _ = Some ?s /\ _ =>
      destruct (C8_cancelled_loop_may_exit one_producer s) as (s1 & H)
  end.
  - exists queued_then_cancelled. reflexivity.
  - reflexivity.
  - reflexivity.
  - exists s1. split; [reflexivity |]. split; [reflexivity |]. exact H.
Defined.

(** C8 fails as stated: with one event in the queue when [ctx] is
    cancelled, the [select] of the writer may still take the receive
    case, and the event is written after the cancellation. *)
Lemma C8_write_after_cancel_counterexample :
  exists s s',
    exec one_producer queued_then_cancelled = Some s
    /\ ctxDone s = true
    /\ step StreamRecv s = Some s'
    /\ body (rw s) = EmptyString
    /\ body (rw s') = "data: {}" +:+ LF +:+ LF.
Proof.
  eexists. eexists.
  split; [reflexivity |]. split; [reflexivity |].
  split; [reflexivity |]. split; reflexivity.
Qed.

(** ** The session writes what [stream] writes *)

Lemma stream_loop_snoc (es : list event) (e : event) (x : ResponseWriter) :
  stream_loop x (Received <$> (es ++ [e]))
  = stream_event (stream_loop x (Received <$> es)) e.
Proof.
  revert x. induction es as [|e' es IH]; intros x; simpl; [reflexivity |].
  apply IH.
Qed.

Lemma stream_flusher (w0 : ResponseWriter) (sel : list selected) :
  isFlusher w0 = true -> stream w0 sel = stream_loop (stream_begin w0).1 sel.
Proof. intros H. unfold stream, stream_begin. now rewrite H. Qed.

Lemma response_follows_stream_step (w0 : ResponseWriter) (l : label) (s s' : state) :
  response_follows_stream w0 s -> step l s = Some s' ->
  response_follows_stream w0 s'.
Proof.
  unfold response_follows_stream. intros HP H.
  destruct l;
    try (step_inv H; unfold tick, sent;
         repeat match goal with
                | |- context [match Generate ?a ?b with _ => _ end] =>
                    destruct (Generate a b)
                | |- context [if ?x then _ else _] => destruct x
                end;
         exact HP).
  - (* StreamBegin *)
    unfold step in H. destruct (panicked s); [discriminate |].
    destruct (main s); try discriminate. subst w0.
    destruct (stream_begin (rw s)) as [w' b] eqn:Hb. injection H as <-.
    unfold stream_begin in Hb.
    destruct (isFlusher (rw s)) eqn:Hf; injection Hb as <- <-; simpl.
    + split; [reflexivity |]. exists [].
      unfold stream, stream_begin. now rewrite Hf.
    + exists []. unfold stream, stream_begin. now rewrite Hf.
  - (* StreamDone *)
    unfold step in H. destruct (panicked s); [discriminate |].
    destruct (main s); try discriminate.
    destruct (ctxDone s); [| discriminate]. injection H as <-.
    destruct HP as [_ [es Hes]]. simpl. eauto.
  - (* StreamRecv *)
    unfold step in H. destruct (panicked s); [discriminate |].
    destruct (main s) eqn:Hm, (ch s) as [|e q]; try discriminate.
    injection H as <-. destruct HP as [Hf [es Hes]].
    simpl. rewrite Hm. split; [exact Hf |]. exists (es ++ [e]).
    rewrite Hes, !stream_flusher by exact Hf.
    symmetry. apply stream_loop_snoc.
Qed.

(** In every reachable state past the start of [stream], the response is
    the one [stream] produces from the session's writer for some outcomes
    of its [select]. *)
Lemma session_response_is_stream (cs : contentStreamer) (s : state) :
  reachable cs s -> response_follows_stream (w cs) s.
Proof.
  intros [sched H]. apply exec_inr in H as (s0 & H0 & Hrun).
  eapply (run_invariant (response_follows_stream (w cs)));
    eauto using response_follows_stream_step.
  unfold content in H0.
  destruct (eventGenerators cs); [| discriminate].
  destruct (streamFn_ cs) as [[]|]; [| discriminate].
  destruct (logger cs); [| discriminate].
  injection H0 as <-. reflexivity.
Qed.

(** ** The scheduling goroutine *)

(** A goroutine starts at its [select] with a timer of zero and no call
    of [Generate] made. *)
Lemma spawned_without_delay (cs : contentStreamer) (s0 : state) :
  content cs = inr s0 ->
  Forall (fun t => ncalls t = 0%nat /\ tmr t = Armed 0%Z /\ pc t = AtSelect) (tasks s0).
Proof.
  unfold content. intros H.
  destruct (eventGenerators cs) as [egs|]; [| discriminate].
  destruct (streamFn_ cs) as [[]|]; [| discriminate].
  destruct (logger cs); [| discriminate].
  injection H as <-. simpl.
  induction egs as [|g egs IH]; constructor; auto.
Qed.

(** A successful [Generate] takes the goroutine to its send. *)
Lemma tick_success (i : nat) (t : task) (e : event) (s : state) :
  panicked s = false -> tasks s !! i = Some t ->
  pc t = AtSelect -> tmr t = Fired ->
  Generate (eg t) (ncalls t) = inl e ->
  step (TaskTick i) s
  = Some (set_task i (with_pc (AtSend e) (called (with_tmr Drained t))) s).
Proof.
  intros Hp Ht Hpc Htm Hg. unfold step, tick.
  now rewrite Hp, Ht, Hpc, Htm, Hg.
Qed.

(** The send goes through when the buffer has room; the goroutine then
    terminates when [RunEvery()] is zero and resets its timer otherwise. *)
Lemma send_then_exit_or_rearm (i : nat) (t : task) (e : event) (s : state) :
  panicked s = false -> chClosed s = false -> ch s = [] ->
  tasks s !! i = Some t -> pc t = AtSend e ->
  exists s1,
    step (TaskSend i) s = Some s1
    /\ ch s1 = [e]
    /\ tasks s1 !! i
       = Some (if (RunEvery (eg t) (ncalls t) =? 0)%Z
               then with_pc Exited t
               else with_pc AtSelect (with_tmr (Armed (RunEvery (eg t) (ncalls t))) t)).
Proof.
  intros Hp Hc Hq Ht Hpc. unfold step, sent.
  rewrite Hp, Ht, Hpc, Hc, Hq. simpl.
  destruct (RunEvery (eg t) (ncalls t) =? 0)%Z; eexists;
    (split; [reflexivity |]); simpl;
    (split; [reflexivity |]);
    apply list_lookup_insert_eq; eapply lookup_lt_Some; eauto.
Qed.

(** The send stays suspended while the buffer is full. *)
Lemma send_blocked_on_full_buffer (i : nat) (s : state) :
  (chCap <= length (ch s))%nat -> chClosed s = false -> step (TaskSend i) s = None.
Proof.
  intros Hfull Hc. unfold step. rewrite Hc.
  destruct (panicked s); [reflexivity |].
  destruct (tasks s !! i) as [t|]; [| reflexivity].
  destruct (pc t); try reflexivity.
  destruct (length (ch s) <? chCap)%nat eqn:Hlt; [| reflexivity].
  apply Nat.ltb_lt in Hlt. lia.
Qed.

(** ** Generation errors *)

Lemma lookup_set_task_eq (i : nat) (t t' : task) (s : state) :
  tasks s !! i = Some t -> tasks (set_task i t' s) !! i = Some t'.
Proof.
  intros H. simpl. apply list_lookup_insert_eq. eapply lookup_lt_Some; eauto.
Qed.

Lemma lookup_set_task_ne (i j : nat) (t' : task) (s : state) :
  i <> j -> tasks (set_task j t' s) !! i = tasks s !! i.
Proof. intros H. simpl. apply list_lookup_insert_ne. auto. Qed.

(** A goroutine whose timer expired and was not reset never calls
    [Generate] again: only the cancellation case of its [select] is left. *)
Lemma stalled_step (i n : nat) (l : label) (s s' : state) :
  stalled i n s -> step l s = Some s' -> stalled i n s'.
Proof.
  intros (t & Ht & Hn & Htm & Hpc) H.
  assert (Hkeep : forall j t' x,
             i <> j -> tasks x = tasks s -> (ctxDone s = true -> ctxDone x = true) ->
             stalled i n (set_task j t' x)).
  { intros j t' x Hne Hx Hd. exists t.
    rewrite lookup_set_task_ne, Hx by exact Hne.
    repeat split; auto. destruct Hpc as [Hpc | [Hpc Hc]]; auto. }
  assert (Hsame : forall x,
             tasks x = tasks s -> (ctxDone s = true -> ctxDone x = true) ->
             stalled i n x).
  { intros x Hx Hd. exists t. rewrite Hx.
    repeat split; auto. destruct Hpc as [Hpc | [Hpc Hc]]; auto. }
  step_inv H; try (apply Hsame; simpl; auto; fail);
    match goal with
    | Hl : tasks s !! ?j = Some ?t0 |- _ =>
        destruct (decide (i = j)) as [<- | Hne];
        [ rewrite Ht in Hl; injection Hl as <- | ]
    end;
    try (destruct Hpc as [Hpc | [Hpc _]]; congruence);
    try (unfold tick, sent;
         repeat match goal with
                | |- context [match ?x with _ => _ end] => destruct x eqn:?
                end;
         apply Hkeep; simpl; auto; fail).
  (* the goroutine itself takes the cancellation case *)
  exists (with_pc Exited t).
  split; [eapply lookup_set_task_eq; eauto |].
  simpl. auto.
Qed.

Lemma stalled_run (i n : nat) (sched : list label) (s s' : state) :
  stalled i n s -> run sched s = Some s' -> stalled i n s'.
Proof.
  apply (run_invariant (stalled i n)). intros l x x' Hx Hs.
  eapply stalled_step; eauto.
Qed.

(** The move a failing [Generate] makes. *)
Lemma tick_error (i : nat) (t : task) (err : error) (s : state) :
  panicked s = false -> tasks s !! i = Some t ->
  pc t = AtSelect -> tmr t = Fired ->
  Generate (eg t) (ncalls t) = inr err ->
  step (TaskTick i) s
  = Some (set_task i (called (with_tmr Drained t))
            (set_lg (Errorf ("event generator error: " +:+ err) (lg s)) s)).
Proof.
  intros Hp Ht Hpc Htm Hg. unfold step, tick.
  now rewrite Hp, Ht, Hpc, Htm, Hg.
Qed.

(** C1, on the code. When [Generate] fails the goroutine logs the error
    and pushes nothing, but it does not go on as after a success: the
    timer is left expired, neither reset to [RunEvery()] nor is the
    goroutine terminated, and in every continuation the goroutine makes
    no further call of [Generate]; it can only leave on cancellation. *)
Theorem C1_error_leaves_timer_expired :
  forall s i t err,
    panicked s = false -> tasks s !! i = Some t ->
    pc t = AtSelect -> tmr t = Fired ->
    Generate (eg t) (ncalls t) = inr err ->
    exists s1,
      step (TaskTick i) s = Some s1
      /\ entries (lg s1) = entries (lg s) ++ ["event generator error: " +:+ err]
      /\ ch s1 = ch s
      /\ tasks s1 !! i
         = Some {| eg := eg t; ncalls := S (ncalls t); tmr := Drained; pc := AtSelect |}
      /\ forall sched s2,
           run sched s1 = Some s2 ->
           exists t2, tasks s2 !! i = Some t2
                      /\ ncalls t2 = S (ncalls t)
                      /\ tmr t2 = Drained
                      /\ (pc t2 = AtSelect \/ (pc t2 = Exited /\ ctxDone s2 = true)).
Proof.
  intros s i t err Hp Ht Hpc Htm Hg.
  eexists. split; [apply tick_error; eassumption |].
  split; [reflexivity |]. split; [reflexivity |].
  assert (Hl : tasks (set_task i (called (with_tmr Drained t))
                        (set_lg (Errorf ("event generator error: " +:+ err) (lg s)) s)) !! i
               = Some {| eg := eg t; ncalls := S (ncalls t); tmr := Drained; pc := AtSelect |}).
  { erewrite lookup_set_task_eq by (simpl; exact Ht).
    unfold called, with_tmr; simpl. now rewrite Hpc. }
  split; [exact Hl |].
  intros sched s2 Hrun.
  eapply (stalled_run i (S (ncalls t))); [| exact Hrun].
  eexists. split; [exact Hl |]. simpl. auto.
Qed.

(** A failing generator with a five second interval, at its first tick. *)
Lemma C1_failing_generator_witness :
  exists s,
    exec (failing_session (5 * Second)%Z) first_tick_due = Some s
    /\ exists s1,
         step (TaskTick 0) s = Some s1
         /\ entries (lg s1) = ["event generator error: boom"]
         /\ ch s1 = []
         /\ tasks s1 !! 0%nat
            = Some {| eg := failing "boom" (5 * Second)%Z; ncalls := 1;
                      tmr := Drained; pc := AtSelect |}.
Proof.
  eexists. split; [reflexivity |].
  match goal with
  | |- exists s1, step _ ?s = _ /\ _ =>
      destruct (C1_error_leaves_timer_expired s 0%nat
                  {| eg := failing "boom" (5 * Second)%Z; ncalls := 0;
                     tmr := Fired; pc := AtSelect |} "boom"
                  eq_refl eq_refl eq_refl eq_refl eq_refl)
        as (s1 & H1 & H2 & H3 & H4 & _)
  end.
  exists s1. split; [exact H1 |]. split; [exact H2 |]. split; [exact H3 | exact H4].
Defined.

Lemma step_ctxDone (l : label) (s s' : state) :
  step l s = Some s' -> l <> Cancel -> ctxDone s' = ctxDone s.
Proof.
  intros H Hl.
  step_inv H; try congruence; unfold tick, sent;
    repeat match goal with
           | |- context [match ?x with _ => _ end] => destruct x eqn:?
           end;
    simpl; congruence.
Qed.

Lemma run_ctxDone (sched : list label) (s s' : state) :
  run sched s = Some s' -> Cancel ∉ sched -> ctxDone s' = ctxDone s.
Proof.
  revert s. induction sched as [|l sched IH]; intros s Hrun Hn; simpl in Hrun.
  - now injection Hrun as <-.
  - destruct (step l s) as [s1|] eqn:Hs; [| discriminate].
    rewrite (IH s1 Hrun).
    + eapply step_ctxDone; eauto. intros ->. apply Hn. left.
    + intros Hin. apply Hn. now right.
Qed.

(** C7, on the code. A goroutine whose generator has interval zero does
    not terminate after a failed first generation: it is back at its
    [select] with an expired timer, and stays there along every schedule
    in which [ctx] is not cancelled. *)
Theorem C7_interval_zero_error_no_exit :
  forall s i t err,
    panicked s = false -> ctxDone s = false -> tasks s !! i = Some t ->
    pc t = AtSelect -> tmr t = Fired ->
    Generate (eg t) (ncalls t) = inr err ->
    RunEvery (eg t) (S (ncalls t)) = 0%Z ->
    exists s1,
      step (TaskTick i) s = Some s1
      /\ forall sched s2,
           Cancel ∉ sched -> run sched s1 = Some s2 ->
           exists t2, tasks s2 !! i = Some t2
                      /\ pc t2 = AtSelect /\ tmr t2 = Drained
                      /\ ncalls t2 = S (ncalls t).
Proof.
  intros s i t err Hp Hd Ht Hpc Htm Hg _.
  eexists. split; [apply tick_error; eassumption |].
  intros sched s2 Hn Hrun.
  assert (Hst : stalled i (S (ncalls t)) s2).
  { eapply stalled_run; [| exact Hrun].
    eexists. split; [eapply lookup_set_task_eq; simpl; exact Ht |].
    simpl. auto. }
  destruct Hst as (t2 & Ht2 & Hn2 & Htm2 & [Hpc2 | [_ Hc]]).
  - exists t2. auto.
  - rewrite (run_ctxDone _ _ _ Hrun Hn) in Hc. simpl in Hc. congruence.
Qed.

(** A failing generator with interval zero, at its first tick. *)
Lemma C7_interval_zero_witness :
  exists s,
    exec (failing_session 0%Z) first_tick_due = Some s
    /\ exists s1,
         step (TaskTick 0) s = Some s1
         /\ forall sched s2,
              Cancel ∉ sched -> run sched s1 = Some s2 ->
              exists t2, tasks s2 !! 0%nat = Some t2
                         /\ pc t2 = AtSelect /\ tmr t2 = Drained
                         /\ ncalls t2 = 1%nat.
Proof.
  eexists. split; [reflexivity |].
  match goal with
  | |- exists s1, step _ ?s = _ /\ _ =>
      apply (C7_interval_zero_error_no_exit s 0%nat
               {| eg := failing "boom" 0%Z; ncalls := 0;
                  tmr := Fired; pc := AtSelect |} "boom");
        reflexivity
  end.
Defined.

(** ** Cancellation and the scheduling goroutines *)

(** C2, on the code. Two generators have each generated an event when
    [ctx] is cancelled; the writer leaves its loop; the first goroutine
    fills the buffer and leaves; the second stays suspended in its send,
    [content] stays in [wg.Wait], and no move is enabled any more. *)
Theorem C2_cancel_leaves_sender_blocked :
  exists s t,
    exec two_producers blocked_schedule = Some s
    /\ ctxDone s = true
    /\ main s = AtWait
    /\ ch s = [ping]
    /\ tasks s !! 1%nat = Some t
    /\ pc t = AtSend navigation_event
    /\ wg_zero s = false
    /\ stuck s.
Proof.
  eexists. eexists.
  split; [vm_compute; reflexivity |].
  repeat (split; [reflexivity |]).
  intros l. destruct l as [|i|i|i|i| | | |]; try reflexivity;
    destruct i as [|[|i]]; reflexivity.
Qed.

(** * Further properties of [stream] *)

Lemma body_of_event_calls (e : event) : body_of (event_calls e) = encode e.
Proof.
  unfold event_calls, encode, event_line, data_line.
  destruct (nonempty (name e)); simpl; now rewrite append_nil_r.
Qed.

Lemma body_of_records (es : list event) :
  body_of (concat (event_calls <$> es)) = records es.
Proof.
  induction es as [|e es IH]; [reflexivity |].
  change (body_of (event_calls e ++ concat (event_calls <$> es))
          = encode e +:+ records es).
  now rewrite body_of_app, body_of_event_calls, IH.
Qed.

(** X1. On a sink that can flush, the response body [stream] leaves is
    the body it found followed by the records of the events it received
    before the cancellation case was taken, in the order received, and
    nothing else. *)
Theorem X1_stream_body_is_the_records :
  forall (cs0 : list call) (sel : list selected),
    body (stream {| isFlusher := true; calls := cs0 |} sel)
    = body_of cs0 +:+ records (written sel).
Proof.
  intros cs0 sel. unfold body.
  rewrite calls_stream_flusher, !body_of_app, body_of_records.
  reflexivity.
Qed.

Lemma filter_concat_event_calls_Flush (es : list event) :
  length (List.filter is_Flush (concat (event_calls <$> es))) = length es.
Proof.
  induction es as [|e es IH]; [reflexivity |].
  change (length (List.filter is_Flush (event_calls e ++ concat (event_calls <$> es)))
          = S (length es)).
  rewrite List.filter_app, length_app, IH.
  unfold event_calls. destruct (nonempty (name e)); reflexivity.
Qed.

Lemma filter_concat_event_calls_Write (es : list event) :
  length (List.filter is_body_Write (concat (event_calls <$> es)))
  = (length es + length (named es))%nat.
Proof.
  induction es as [|e es IH]; [reflexivity |].
  change (length (List.filter is_body_Write
                    (event_calls e ++ concat (event_calls <$> es)))
          = (S (length es) + length (named (e :: es)))%nat).
  rewrite List.filter_app, length_app, IH.
  unfold named, event_calls; simpl List.filter.
  destruct (nonempty (name e)); simpl; lia.
Qed.

(** X2. On a sink that can flush, [stream] flushes once per event it
    writes, and writes to the body once per event plus once more per
    event that has a name. *)
Theorem X2_one_flush_per_event :
  forall (cs0 : list call) (sel : list selected),
    let out := stream {| isFlusher := true; calls := cs0 |} sel in
    length (List.filter is_Flush (calls out))
    = (length (List.filter is_Flush cs0) + length (written sel))%nat
    /\ length (List.filter is_body_Write (calls out))
       = (length (List.filter is_body_Write cs0)
          + length (written sel) + length (named (written sel)))%nat.
Proof.
  intros cs0 sel out. unfold out.
  rewrite calls_stream_flusher, !List.filter_app, !length_app.
  rewrite filter_concat_event_calls_Flush, filter_concat_event_calls_Write.
  simpl. split; lia.
Qed.

Lemma stream_loop_done (es : list event) (rest : list selected) (x : ResponseWriter) :
  stream_loop x ((Received <$> es) ++ CtxDone :: rest)
  = stream_loop x (Received <$> es).
Proof.
  revert x. induction es as [|e es IH]; intros x; [reflexivity |].
  apply IH.
Qed.

(** X3. Once the loop of [stream] takes the cancellation case it is
    over: whatever becomes ready afterwards is neither received nor
    written, on any sink. *)
Theorem X3_nothing_after_ctx_done :
  forall (x : ResponseWriter) (es : list event) (rest : list selected),
    stream x ((Received <$> es) ++ CtxDone :: rest) = stream x (Received <$> es).
Proof.
  intros x es rest. unfold stream.
  destruct (stream_begin x) as [x' [|]]; [apply stream_loop_done | reflexivity].
Qed.

Lemma length_append (a b : string) :
  String.length (a +:+ b) = (String.length a + String.length b)%nat.
Proof.
  induction a as [|c a IH]; [reflexivity |].
  rewrite append_cons. simpl. now rewrite IH.
Qed.

Lemma append_inv_tail (a b c : string) : a +:+ c = b +:+ c -> a = b.
Proof.
  revert b. induction a as [|x a IH]; intros [|y b] H.
  - reflexivity.
  - apply (f_equal String.length) in H.
    rewrite append_nil_l, append_cons in H.
    simpl in H. rewrite length_append in H. lia.
  - apply (f_equal String.length) in H.
    rewrite append_nil_l, append_cons in H.
    simpl in H. rewrite length_append in H. lia.
  - rewrite !append_cons in H. injection H as -> H. f_equal. now apply IH.
Qed.

Lemma split_at_first_LF (n1 n2 r1 r2 : string) :
  contains_LF n1 = false -> contains_LF n2 = false ->
  n1 +:+ LF +:+ r1 = n2 +:+ LF +:+ r2 -> n1 = n2 /\ r1 = r2.
Proof.
  revert n2. induction n1 as [|c n1 IH]; intros [|c2 n2] H1 H2 H.
  - change (String "010"%char r1 = String "010"%char r2) in H.
    now injection H as ->.
  - change (String "010"%char r1 = String c2 (n2 +:+ LF +:+ r2)) in H.
    injection H as <- _. simpl in H2. discriminate.
  - change (String c (n1 +:+ LF +:+ r1) = String "010"%char r2) in H.
    injection H as -> _. simpl in H1. discriminate.
  - rewrite !append_cons in H. injection H as -> H.
    simpl in H1, H2. apply orb_false_elim in H1 as [_ H1].
    apply orb_false_elim in H2 as [_ H2].
    destruct (IH n2 H1 H2 H) as [-> ->]. auto.
Qed.

Lemma string_of_bytes_inj (a b : list byte) :
  string_of_bytes a = string_of_bytes b -> a = b.
Proof.
  unfold string_of_bytes. intros H.
  rewrite <- (list_byte_of_string_of_list_byte a), H.
  apply list_byte_of_string_of_list_byte.
Qed.

Lemma data_line_inj (n1 n2 : string) (d1 d2 : list byte) :
  data_line (Event n1 d1) = data_line (Event n2 d2) -> d1 = d2.
Proof.
  unfold data_line; simpl name; simpl data. intros H.
  apply String.app_inj in H.
  apply append_inv_tail in H. now apply string_of_bytes_inj.
Qed.

(** X4. Two events whose names hold no newline byte and whose records
    are the same bytes are the same event: without a newline in the name
    the wire record determines name and payload. *)
Theorem X4_record_determines_event :
  forall e1 e2 : event,
    contains_LF (name e1) = false -> contains_LF (name e2) = false ->
    encode e1 = encode e2 -> e1 = e2.
Proof.
  intros [n1 d1] [n2 d2]. simpl name. intros H1 H2 H.
  unfold encode, event_line in H. simpl name in H.
  destruct n1 as [|c1 n1], n2 as [|c2 n2]; simpl nonempty in H; cbv iota in H.
  - rewrite !append_nil_l in H. f_equal. eapply data_line_inj; eauto.
  - exfalso. unfold data_line in H. repeat rewrite append_cons in H.
    discriminate H.
  - exfalso. unfold data_line in H. repeat rewrite append_cons in H.
    discriminate H.
  - rewrite !append_assoc in H. apply String.app_inj in H.
    apply split_at_first_LF in H as [Hn Hd]; [| assumption | assumption].
    f_equal; [exact Hn |]. eapply data_line_inj; eauto.
Qed.

(** The navigation event and an event built from the same bytes. *)
Lemma X4_navigation_record_witness :
  contains_LF (name navigation_event) = false
  /\ navigation_event
     = Event "navigation" (bytes ("{" +:+ DQ +:+ "sections" +:+ DQ +:+ ":[]}")).
Proof.
  split; [reflexivity |].
  apply (X4_record_determines_event navigation_event
           (Event "navigation" (bytes ("{" +:+ DQ +:+ "sections" +:+ DQ +:+ ":[]}"))));
    reflexivity.
Defined.

Lemma string_of_bytes_bytes (s : string) : string_of_bytes (bytes s) = s.
Proof. apply string_of_list_byte_of_string. Qed.

(** X5. Nothing is escaped, so records are ambiguous: an event whose
    payload holds a blank line followed by a data field is written as the
    same bytes as two events, the second without a name. *)
Theorem X5_payload_can_forge_a_record :
  forall (nm : string) (d1 d2 : list byte),
    encode (Event nm (d1 ++ bytes (LF +:+ LF +:+ "data: ") ++ d2))
    = encode (Event nm d1) +:+ encode (Event EmptyString d2).
Proof.
  intros nm d1 d2. unfold encode, event_line, data_line. cbn [name data].
  rewrite !string_of_bytes_app.
  rewrite string_of_bytes_bytes.
  simpl nonempty. cbv iota. rewrite append_nil_l.
  now rewrite !append_assoc.
Qed.

(** X6. [Header().Set] replaces: on a sink that can flush the header map
    after [stream] is the map before it with the four event-stream
    headers put in, whatever values they had, and every other header
    kept; on a sink that cannot, the two headers of [http.Error] are put
    in instead. *)
Theorem X6_headers_replace_and_keep :
  forall (cs0 : list call) (sel : list selected),
    header_of (calls (stream {| isFlusher := true; calls := cs0 |} sel)) ∅
    = <["Access-Control-Allow-Origin" := "*"]>
        (<["Connection" := "keep-alive"]>
           (<["Cache-Control" := "no-cache"]>
              (<["Content-Type" := "text/event-stream"]> (header_of cs0 ∅))))
    /\ header_of (calls (stream {| isFlusher := false; calls := cs0 |} sel)) ∅
       = <["X-Content-Type-Options" := "nosniff"]>
           (<["Content-Type" := "text/plain; charset=utf-8"]> (header_of cs0 ∅)).
Proof.
  intros cs0 sel. split.
  - rewrite calls_stream_flusher, !header_of_app.
    rewrite header_of_no_header by apply written_calls_no_header.
    reflexivity.
  - rewrite calls_stream_no_flusher, header_of_app. reflexivity.
Qed.

(** * Further properties of [content] *)

(** ** Moves, goroutine by goroutine *)

Lemma step_tasks (l : label) (s s' : state) :
  step l s = Some s' ->
  tasks s' = tasks s
  \/ exists i t t', tasks s !! i = Some t
                    /\ tasks s' = <[i := t']> (tasks s)
                    /\ task_move s t t'.
Proof.
  intros H. unfold step in H.
  destruct (panicked s); [discriminate |].
  destruct l as [|i|i|i|i| | | |].
  - destruct (ctxDone s); [discriminate |]. injection H as <-. now left.
  - destruct (tasks s !! i) as [t|] eqn:Ht; [| discriminate].
    destruct (pc t) eqn:Hpc; try discriminate.
    destruct (tmr t) eqn:Htm; try discriminate.
    injection H as <-. right. exists i, t, (with_tmr Fired t).
    repeat split; auto. eapply move_fires; eauto.
  - destruct (tasks s !! i) as [t|] eqn:Ht; [| discriminate].
    destruct (pc t) eqn:Hpc; try discriminate.
    destruct (ctxDone s) eqn:Hd; [| discriminate].
    injection H as <-. right. exists i, t, (with_pc Exited t).
    repeat split; auto. now apply move_done.
  - destruct (tasks s !! i) as [t|] eqn:Ht; [| discriminate].
    destruct (pc t) eqn:Hpc; try discriminate.
    destruct (tmr t) eqn:Htm; try discriminate.
    injection H as <-. right. unfold tick.
    destruct (Generate (eg t) (ncalls t)) as [e | err] eqn:Hg.
    + exists i, t, (with_pc (AtSend e) (called (with_tmr Drained t))).
      repeat split; auto. now apply move_tick_event.
    + exists i, t, (called (with_tmr Drained t)).
      repeat split; auto. now apply move_tick_error with (err := err).
  - destruct (tasks s !! i) as [t|] eqn:Ht; [| discriminate].
    destruct (pc t) eqn:Hpc; try discriminate.
    destruct (chClosed s) eqn:Hc; [injection H as <-; now left |].
    destruct (length (ch s) <? chCap)%nat; [| discriminate].
    injection H as <-. right. unfold sent.
    destruct (RunEvery (eg t) (ncalls t) =? 0)%Z eqn:Hz.
    + exists i, t, (with_pc Exited t). repeat split; auto.
      apply Z.eqb_eq in Hz. now apply move_sent_exit with (e := e).
    + exists i, t, (with_pc AtSelect (with_tmr (Armed (RunEvery (eg t) (ncalls t))) t)).
      repeat split; auto.
      apply Z.eqb_neq in Hz. now apply move_sent_rearm with (e := e).
  - destruct (main s); try discriminate.
    destruct (stream_begin (rw s)) as [x b]. injection H as <-. now left.
  - destruct (main s); try discriminate.
    destruct (ctxDone s); [| discriminate]. injection H as <-. now left.
  - destruct (main s), (ch s); try discriminate. injection H as <-. now left.
  - destruct (main s); try discriminate.
    destruct (wg_zero s); [| discriminate]. injection H as <-. now left.
Qed.

(** The goroutine at an index after a move is the one before it, moved
    or not. *)
Lemma step_task_at (l : label) (s s' : state) (i : nat) (t : task) :
  step l s = Some s' -> tasks s !! i = Some t ->
  exists t', tasks s' !! i = Some t' /\ (t' = t \/ task_move s t t').
Proof.
  intros H Ht. destruct (step_tasks _ _ _ H) as [-> | (j & u & u' & Hu & -> & Hm)].
  - exists t. auto.
  - destruct (decide (j = i)) as [-> | Hne].
    + exists u'. split.
      * apply list_lookup_insert_eq. eapply lookup_lt_Some; eauto.
      * right. congruence.
    + exists t. split; [| now left].
      rewrite list_lookup_insert_ne by exact Hne. exact Ht.
Qed.

Lemma step_task_from (l : label) (s s' : state) (i : nat) (t' : task) :
  step l s = Some s' -> tasks s' !! i = Some t' ->
  exists t, tasks s !! i = Some t /\ (t' = t \/ task_move s t t').
Proof.
  intros H Ht'.
  destruct (tasks s !! i) as [t|] eqn:Ht.
  - destruct (step_task_at _ _ _ _ _ H Ht) as (u & Hu & Hm).
    exists t. split; [reflexivity |]. congruence.
  - exfalso. destruct (step_tasks _ _ _ H) as [He | (j & u & u' & Hu & He & _)];
      rewrite He in Ht'.
    + congruence.
    + apply lookup_lt_Some in Ht'. rewrite length_insert in Ht'.
      apply lookup_ge_None in Ht. lia.
Qed.

Lemma task_move_eg (s : state) (t t' : task) : task_move s t t' -> eg t' = eg t.
Proof. destruct 1; reflexivity. Qed.

(** ** The channel is a queue *)

Lemma step_fifo (l : label) (s s' : state) :
  step l s = Some s' ->
  ch s ++ pushed_by l s = received_by l s ++ ch s'.
Proof.
  intros H. unfold pushed_by, received_by, step in *.
  destruct (panicked s); [discriminate |].
  destruct l as [|i|i|i|i| | | |].
  - destruct (ctxDone s); [discriminate |]. injection H as <-.
    simpl. apply app_nil_r.
  - destruct (tasks s !! i) as [t|]; [| discriminate].
    destruct (pc t), (tmr t); try discriminate. injection H as <-.
    simpl. apply app_nil_r.
  - destruct (tasks s !! i) as [t|]; [| discriminate].
    destruct (pc t); try discriminate.
    destruct (ctxDone s); [| discriminate]. injection H as <-.
    simpl. apply app_nil_r.
  - destruct (tasks s !! i) as [t|]; [| discriminate].
    destruct (pc t), (tmr t); try discriminate. injection H as <-.
    unfold tick. destruct (Generate (eg t) (ncalls t)); simpl; apply app_nil_r.
  - destruct (tasks s !! i) as [t|]; [| discriminate].
    destruct (pc t); try discriminate.
    destruct (chClosed s); [injection H as <-; simpl; apply app_nil_r |].
    destruct (length (ch s) <? chCap)%nat; [| discriminate].
    injection H as <-. unfold sent.
    destruct (RunEvery (eg t) (ncalls t) =? 0)%Z; reflexivity.
  - destruct (main s); try discriminate.
    destruct (stream_begin (rw s)) as [x b]. injection H as <-.
    simpl. apply app_nil_r.
  - destruct (main s); try discriminate.
    destruct (ctxDone s); [| discriminate]. injection H as <-.
    simpl. apply app_nil_r.
  - destruct (main s), (ch s) as [|e q]; try discriminate. injection H as <-.
    simpl. now rewrite app_nil_r.
  - destruct (main s); try discriminate.
    destruct (wg_zero s); [| discriminate]. injection H as <-.
    simpl. apply app_nil_r.
Qed.

Lemma run_fifo (sched : list label) (s s' : state) :
  run sched s = Some s' ->
  ch s ++ pushes sched s = receipts sched s ++ ch s'.
Proof.
  revert s. induction sched as [|l sched IH]; intros s H; simpl in *.
  - injection H as <-. apply app_nil_r.
  - destruct (step l s) as [s1|] eqn:Hs; [| discriminate].
    rewrite app_assoc, (step_fifo _ _ _ Hs), <- !app_assoc.
    f_equal. now apply IH.
Qed.

(** X7. The channel neither drops, duplicates nor reorders: along every
    execution of a session the events pushed into the channel are, in
    order, the events the writer received followed by the events still in
    the buffer. *)
Theorem X7_channel_is_fifo :
  forall cs s0 sched s,
    content cs = inr s0 -> run sched s0 = Some s ->
    pushes sched s0 = receipts sched s0 ++ ch s.
Proof.
  intros cs s0 sched s H0 Hrun.
  assert (Hq : ch s0 = []).
  { unfold content in H0.
    destruct (eventGenerators cs); [| discriminate].
    destruct (streamFn_ cs) as [[]|]; [| discriminate].
    destruct (logger cs); [| discriminate].
    now injection H0 as <-. }
  pose proof (run_fifo _ _ _ Hrun) as H. now rewrite Hq in H.
Qed.

(** One event pushed, received and written; nothing left in the buffer. *)
Lemma X7_clean_session_witness :
  exists s0 s,
    content clean_session = inr s0
    /\ run clean_schedule s0 = Some s
    /\ pushes clean_schedule s0 = [ping]
    /\ receipts clean_schedule s0 = [ping]
    /\ ch s = []
    /\ pushes clean_schedule s0 = receipts clean_schedule s0 ++ ch s.
Proof.
  eexists. eexists.
  split; [reflexivity |]. split; [reflexivity |].
  split; [reflexivity |]. split; [reflexivity |]. split; [reflexivity |].
  eapply (X7_channel_is_fifo clean_session); reflexivity.
Defined.

Lemma isFlusher_stream_event (x : ResponseWriter) (e : event) :
  isFlusher (stream_event x e) = isFlusher x.
Proof. unfold stream_event. destruct (nonempty (name e)); reflexivity. Qed.

Lemma step_body (l : label) (s s' : state) :
  step l s = Some s' -> isFlusher (rw s) = true ->
  isFlusher (rw s') = true
  /\ body (rw s') = body (rw s) +:+ records (received_by l s).
Proof.
  intros H Hf. unfold received_by, step in *.
  destruct (panicked s); [discriminate |].
  destruct l as [|i|i|i|i| | | |].
  - destruct (ctxDone s); [discriminate |]. injection H as <-.
    simpl. now rewrite append_nil_r.
  - destruct (tasks s !! i) as [t|]; [| discriminate].
    destruct (pc t), (tmr t); try discriminate. injection H as <-.
    simpl. now rewrite append_nil_r.
  - destruct (tasks s !! i) as [t|]; [| discriminate].
    destruct (pc t); try discriminate.
    destruct (ctxDone s); [| discriminate]. injection H as <-.
    simpl. now rewrite append_nil_r.
  - destruct (tasks s !! i) as [t|]; [| discriminate].
    destruct (pc t), (tmr t); try discriminate. injection H as <-.
    unfold tick. destruct (Generate (eg t) (ncalls t)); simpl;
      now rewrite append_nil_r.
  - destruct (tasks s !! i) as [t|]; [| discriminate].
    destruct (pc t); try discriminate.
    destruct (chClosed s);
      [injection H as <-; simpl; now rewrite append_nil_r |].
    destruct (length (ch s) <? chCap)%nat; [| discriminate].
    injection H as <-. unfold sent.
    destruct (RunEvery (eg t) (ncalls t) =? 0)%Z; simpl;
      now rewrite append_nil_r.
  - destruct (main s); try discriminate.
    unfold stream_begin in H. rewrite Hf in H. injection H as <-.
    simpl. split; [exact Hf |].
    unfold body; simpl. rewrite !body_of_app. simpl.
    now rewrite !append_nil_r.
  - destruct (main s); try discriminate.
    destruct (ctxDone s); [| discriminate]. injection H as <-.
    simpl. now rewrite append_nil_r.
  - destruct (main s), (ch s) as [|e q]; try discriminate. injection H as <-.
    split.
    + change (isFlusher (stream_event (rw s) e) = true).
      now rewrite isFlusher_stream_event.
    + change (body (stream_event (rw s) e)
              = body (rw s) +:+ (encode e +:+ EmptyString)).
      now rewrite body_stream_event, append_nil_r.
  - destruct (main s); try discriminate.
    destruct (wg_zero s); [| discriminate]. injection H as <-.
    simpl. now rewrite append_nil_r.
Qed.

Lemma run_body (sched : list label) (s s' : state) :
  run sched s = Some s' -> isFlusher (rw s) = true ->
  body (rw s') = body (rw s) +:+ records (receipts sched s).
Proof.
  revert s. induction sched as [|l sched IH]; intros s H Hf; simpl in *.
  - injection H as <-. now rewrite append_nil_r.
  - destruct (step l s) as [s1|] eqn:Hs; [| discriminate].
    destruct (step_body _ _ _ Hs Hf) as [Hf1 Hb].
    rewrite (IH s1 H Hf1), Hb, append_assoc. f_equal.
    clear. induction (received_by l s) as [|e es IHes]; [reflexivity |].
    simpl. now rewrite append_assoc, IHes.
Qed.

(** X8. In a session whose sink can flush, the response body is at every
    point the body the sink started with followed by the records of the
    events received from the channel so far, in the order received. *)
Theorem X8_session_body_is_the_received_records :
  forall cs s0 sched s,
    content cs = inr s0 -> isFlusher (w cs) = true -> run sched s0 = Some s ->
    body (rw s) = body (w cs) +:+ records (receipts sched s0).
Proof.
  intros cs s0 sched s H0 Hf Hrun.
  assert (Hw : rw s0 = w cs).
  { unfold content in H0.
    destruct (eventGenerators cs); [| discriminate].
    destruct (streamFn_ cs) as [[]|]; [| discriminate].
    destruct (logger cs); [| discriminate].
    now injection H0 as <-. }
  rewrite <- Hw. apply run_body; [exact Hrun | now rewrite Hw].
Qed.

(** The session that shuts down cleanly wrote the record of its event. *)
Lemma X8_clean_session_witness :
  exists s0 s,
    content clean_session = inr s0
    /\ run clean_schedule s0 = Some s
    /\ body (rw s)
       = body (w clean_session) +:+ records (receipts clean_schedule s0).
Proof.
  eexists. eexists.
  split; [reflexivity |]. split; [reflexivity |].
  eapply (X8_session_body_is_the_received_records clean_session); reflexivity.
Defined.

Lemma content_initial (cs : contentStreamer) (s0 : state) :
  content cs = inr s0 ->
  exists egs l,
    eventGenerators cs = Some egs /\ logger cs = Some l
    /\ s0 = {| ctxDone := false; ch := []; chClosed := false;
               tasks := spawn <$> egs; main := AtStream; rw := w cs;
               lg := l; panicked := false |}.
Proof.
  unfold content. intros H.
  destruct (eventGenerators cs) as [egs|]; [| discriminate].
  destruct (streamFn_ cs) as [[]|]; [| discriminate].
  destruct (logger cs) as [l|]; [| discriminate].
  injection H as <-. eauto.
Qed.

Lemma step_ch_bound (l : label) (s s' : state) :
  step l s = Some s' ->
  (length (ch s) <= chCap)%nat -> (length (ch s') <= chCap)%nat.
Proof.
  intros H Hb. unfold step in H.
  destruct (panicked s); [discriminate |].
  destruct l as [|i|i|i|i| | | |].
  - destruct (ctxDone s); [discriminate |]. now injection H as <-.
  - destruct (tasks s !! i) as [t|]; [| discriminate].
    destruct (pc t), (tmr t); try discriminate. now injection H as <-.
  - destruct (tasks s !! i) as [t|]; [| discriminate].
    destruct (pc t); try discriminate.
    destruct (ctxDone s); [| discriminate]. now injection H as <-.
  - destruct (tasks s !! i) as [t|]; [| discriminate].
    destruct (pc t), (tmr t); try discriminate. injection H as <-.
    unfold tick. now destruct (Generate (eg t) (ncalls t)).
  - destruct (tasks s !! i) as [t|]; [| discriminate].
    destruct (pc t); try discriminate.
    destruct (chClosed s); [now injection H as <- |].
    destruct (length (ch s) <? chCap)%nat eqn:Hlt; [| discriminate].
    apply Nat.ltb_lt in Hlt. injection H as <-. unfold sent.
    destruct (RunEvery (eg t) (ncalls t) =? 0)%Z; simpl;
      rewrite length_app; simpl; lia.
  - destruct (main s); try discriminate.
    destruct (stream_begin (rw s)) as [x b]. now injection H as <-.
  - destruct (main s); try discriminate.
    destruct (ctxDone s); [| discriminate]. now injection H as <-.
  - destruct (main s), (ch s) as [|e q]; try discriminate. injection H as <-.
    simpl in *. lia.
  - destruct (main s); try discriminate.
    destruct (wg_zero s); [| discriminate]. now injection H as <-.
Qed.

(** X9. The channel never holds more than the one event of its buffer:
    in every state a session reaches, the queue has at most one event. *)
Theorem X9_buffer_holds_at_most_one :
  forall cs s, reachable cs s -> (length (ch s) <= 1)%nat.
Proof.
  intros cs s [sched H]. apply exec_inr in H as (s0 & H0 & Hrun).
  apply (run_invariant (fun x => (length (ch x) <= chCap)%nat))
    with (sched := sched) (s := s0); [| | exact Hrun].
  - intros l x x' Hx Hs. eapply step_ch_bound; eauto.
  - destruct (content_initial _ _ H0) as (egs & l & _ & _ & ->).
    unfold chCap. simpl. lia.
Qed.

(** With two generators blocked on one another the buffer holds one. *)
Lemma X9_blocked_session_witness :
  exists s,
    exec two_producers blocked_schedule = Some s
    /\ length (ch s) = 1%nat /\ (length (ch s) <= 1)%nat.
Proof.
  eexists. split; [reflexivity |]. split; [reflexivity |].
  apply (X9_buffer_holds_at_most_one two_producers).
  exists blocked_schedule. reflexivity.
Defined.

(** ** The goroutines of a session *)

Lemma step_generators (l : label) (s s' : state) :
  step l s = Some s' -> eg <$> tasks s' = eg <$> tasks s.
Proof.
  intros H. destruct (step_tasks _ _ _ H) as [-> | (i & t & t' & Ht & -> & Hm)];
    [reflexivity |].
  rewrite list_fmap_insert, (task_move_eg _ _ _ Hm).
  apply list_insert_id. now rewrite list_lookup_fmap, Ht.
Qed.

(** X10. A session runs one goroutine per configured generator, in the
    order of the list, and this never changes: no goroutine is added,
    removed or given another generator. *)
Theorem X10_one_goroutine_per_generator :
  forall cs egs s,
    reachable cs s -> eventGenerators cs = Some egs ->
    eg <$> tasks s = egs.
Proof.
  intros cs egs s [sched H] He. apply exec_inr in H as (s0 & H0 & Hrun).
  apply (run_invariant (fun x => eg <$> tasks x = egs))
    with (sched := sched) (s := s0); [| | exact Hrun].
  - intros l x x' Hx Hs. now rewrite (step_generators _ _ _ Hs).
  - destruct (content_initial _ _ H0) as (egs' & l & He' & _ & ->). simpl.
    assert (egs' = egs) as -> by congruence.
    clear. induction egs as [|g egs IH]; [reflexivity |].
    simpl. f_equal. exact IH.
Qed.

(** Two generators, two goroutines, also when one of them is blocked. *)
Lemma X10_two_producers_witness :
  exists s,
    exec two_producers blocked_schedule = Some s
    /\ eg <$> tasks s
       = [always ping (5 * Second)%Z; always navigation_event (5 * Second)%Z].
Proof.
  eexists. split; [reflexivity |].
  apply (X10_one_goroutine_per_generator two_producers).
  - exists blocked_schedule. reflexivity.
  - reflexivity.
Defined.

Lemma step_final (l : label) (s s' : state) :
  step l s = Some s' ->
  (ctxDone s = true -> ctxDone s' = true)
  /\ (chClosed s = true -> chClosed s' = true).
Proof.
  intros H. unfold step in H.
  destruct (panicked s); [discriminate H |].
  destruct l as [|i|i|i|i| | | |];
    repeat match type of H with
           | context [tasks s !! ?i] => destruct (tasks s !! i) as [t|]
           | context [match pc ?t with _ => _ end] => destruct (pc t)
           | context [match tmr ?t with _ => _ end] => destruct (tmr t)
           | context [match main s with _ => _ end] => destruct (main s)
           | context [match ch s with _ => _ end] => destruct (ch s)
           | context [stream_begin ?x] => destruct (stream_begin x)
           | context [if ?c then _ else _] => destruct c eqn:?
           end;
    try discriminate H;
    injection H as <-; unfold tick, sent;
    repeat match goal with
           | |- context [match ?x with _ => _ end] => destruct x
           end;
    simpl; split; intros; try assumption; congruence.
Qed.

Lemma task_move_ncalls (s : state) (t t' : task) :
  task_move s t t' -> (ncalls t <= ncalls t')%nat /\ pc t <> Exited.
Proof. destruct 1; simpl; split; try lia; congruence. Qed.

(** X11. Nothing is undone along an execution: a cancelled context stays
    cancelled, a closed channel stays closed, a goroutine that has
    terminated is never touched again, and the number of [Generate]
    calls of a goroutine never goes down. *)
Theorem X11_cancel_close_and_exit_are_final :
  forall sched s s',
    run sched s = Some s' ->
    (ctxDone s = true -> ctxDone s' = true)
    /\ (chClosed s = true -> chClosed s' = true)
    /\ forall i t, tasks s !! i = Some t ->
         exists t', tasks s' !! i = Some t'
                    /\ (ncalls t <= ncalls t')%nat
                    /\ (pc t = Exited -> t' = t).
Proof.
  induction sched as [|l sched IH]; intros s s' H; simpl in H.
  - injection H as <-. repeat split; auto. intros i t Ht. exists t. auto.
  - destruct (step l s) as [s1|] eqn:Hs; [| discriminate].
    destruct (step_final _ _ _ Hs) as [Hd Hc].
    destruct (IH _ _ H) as (Hd' & Hc' & Ht').
    repeat split; auto.
    intros i t Ht.
    destruct (step_task_at _ _ _ _ _ Hs Ht) as (t1 & Ht1 & Hm).
    destruct (Ht' _ _ Ht1) as (t2 & Ht2 & Hn & He).
    exists t2. split; [exact Ht2 |].
    destruct Hm as [-> | Hm]; [auto |].
    destruct (task_move_ncalls _ _ _ Hm) as [Hle Hne].
    split; [lia | intros Hx; contradiction].
Qed.

(** The goroutine that left before the deadlock is still as it left. *)
Lemma X11_blocked_session_witness :
  exists s0 s,
    content two_producers = inr s0
    /\ run blocked_schedule s0 = Some s
    /\ ctxDone s = true
    /\ exists t', tasks s !! 0%nat = Some t' /\ (0 <= ncalls t')%nat.
Proof.
  pose (s0 := {| ctxDone := false; ch := []; chClosed := false;
                 tasks := spawn <$> [always ping (5 * Second)%Z;
                                     always navigation_event (5 * Second)%Z];
                 main := AtStream; rw := fresh true;
                 lg := {| entries := [] |}; panicked := false |}).
  exists s0. eexists. split; [reflexivity |]. split; [reflexivity |].
  split; [reflexivity |].
  match goal with
  | |- context [tasks ?s !! _] =>
      destruct (X11_cancel_close_and_exit_are_final blocked_schedule s0 s eq_refl)
        as (_ & _ & H)
  end.
  destruct (H 0%nat (spawn (always ping (5 * Second)%Z)) eq_refl)
    as (t' & Ht' & Hn & _).
  exists t'. split; [exact Ht' | exact Hn].
Defined.

(** A property of goroutines kept by every move holds at every index
    along every schedule. *)
Lemma task_invariant (P : task -> Prop) :
  (forall s t t', task_move s t t' -> P t -> P t') ->
  forall sched s s',
    run sched s = Some s' ->
    (forall i t, tasks s !! i = Some t -> P t) ->
    forall i t, tasks s' !! i = Some t -> P t.
Proof.
  intros Hmove sched s s' Hrun HP.
  apply (run_invariant (fun x => forall i t, tasks x !! i = Some t -> P t))
    with (sched := sched) (s := s); [| exact HP | exact Hrun].
  intros l x x' Hx Hs i t' Ht'.
  destruct (step_task_from _ _ _ _ _ Hs Ht') as (t & Ht & [-> | Hm]); eauto.
Qed.

Lemma spawned_tasks (cs : contentStreamer) (s0 : state) (i : nat) (t : task) :
  content cs = inr s0 -> tasks s0 !! i = Some t ->
  exists egs g, eventGenerators cs = Some egs /\ egs !! i = Some g /\ t = spawn g.
Proof.
  intros H0 Ht.
  destruct (content_initial _ _ H0) as (egs & l & He & _ & ->). simpl in Ht.
  rewrite list_lookup_fmap in Ht.
  destruct (egs !! i) as [g|] eqn:Hg; [| discriminate].
  injection Ht as <-. eauto.
Qed.

Lemma called_at_most_once_move (s : state) (t t' : task) :
  runs_once (eg t) -> task_move s t t' ->
  called_at_most_once t -> called_at_most_once t'.
Proof.
  intros Hz Hm [[Hn Hp] | [Hn Ht]]; destruct Hm; unfold called_at_most_once; simpl;
    try congruence;
    try (exfalso; eapply Hp; eassumption);
    try (left; split; [assumption | intros; congruence]);
    try (right; split; [lia | reflexivity]);
    try (right; split; assumption);
    try (exfalso; match goal with H : RunEvery _ _ <> _ |- _ => apply H, Hz end).
Qed.

(** X12. A generator whose interval is always zero is asked to generate
    at most once in a session, whether that generation succeeds or
    fails. *)
Theorem X12_interval_zero_generates_at_most_once :
  forall cs s i t,
    reachable cs s -> tasks s !! i = Some t -> runs_once (eg t) ->
    (ncalls t <= 1)%nat.
Proof.
  intros cs s i t [sched H] Ht Hz. apply exec_inr in H as (s0 & H0 & Hrun).
  assert (Hinv : runs_once (eg t) -> called_at_most_once t).
  { apply (task_invariant (fun u => runs_once (eg u) -> called_at_most_once u))
      with (sched := sched) (s := s0) (s' := s) (i := i); auto.
    - intros x u u' Hm Hu Hz'.
      rewrite (task_move_eg _ _ _ Hm) in Hz'.
      eapply called_at_most_once_move; eauto.
    - intros j u Hu _.
      destruct (spawned_tasks _ _ _ _ H0 Hu) as (egs & g & _ & _ & ->).
      left. split; [reflexivity | intros e; discriminate]. }
  destruct (Hinv Hz) as [[Hn _] | [Hn _]]; lia.
Qed.

(** The generator of the clean session ran once. *)
Lemma X12_clean_session_witness :
  exists s t,
    exec clean_session clean_schedule = Some s
    /\ tasks s !! 0%nat = Some t
    /\ ncalls t = 1%nat /\ (ncalls t <= 1)%nat.
Proof.
  eexists. eexists. split; [reflexivity |]. split; [reflexivity |].
  split; [reflexivity |].
  eapply (X12_interval_zero_generates_at_most_once clean_session _ 0%nat).
  - exists clean_schedule. reflexivity.
  - reflexivity.
  - intros n. reflexivity.
Defined.

(** X13. A goroutine whose generator never answers an interval of zero
    terminates through cancellation only: wherever it has terminated, the
    context is cancelled. *)
Theorem X13_repeating_generator_stops_on_cancel_only :
  forall cs s i t,
    reachable cs s -> tasks s !! i = Some t -> repeats (eg t) ->
    pc t = Exited -> ctxDone s = true.
Proof.
  intros cs s i t [sched H] Ht Hr Hx. apply exec_inr in H as (s0 & H0 & Hrun).
  revert i t Ht Hr Hx.
  apply (run_invariant
           (fun x => forall i t, tasks x !! i = Some t -> repeats (eg t) ->
                                 pc t = Exited -> ctxDone x = true))
    with (sched := sched) (s := s0); [| | exact Hrun].
  - intros l x x' HP Hs i t' Ht' Hr Hx.
    destruct (step_final _ _ _ Hs) as [Hd _].
    destruct (step_task_from _ _ _ _ _ Hs Ht') as (t & Ht & [-> | Hm]).
    + apply Hd. eapply HP; eauto.
    + rewrite (task_move_eg _ _ _ Hm) in Hr.
      destruct Hm; simpl in Hx; try discriminate Hx; try congruence;
        first [ apply Hd; assumption
              | exfalso; unfold repeats in Hr; eapply Hr; eassumption ].
  - intros i t Ht _ Hx.
    destruct (spawned_tasks _ _ _ _ H0 Ht) as (egs & g & _ & _ & ->).
    discriminate.
Qed.

(** The goroutine that left the blocked session left after the cancel. *)
Lemma X13_two_producers_witness :
  exists s t,
    exec two_producers blocked_schedule = Some s
    /\ tasks s !! 0%nat = Some t
    /\ pc t = Exited /\ ctxDone s = true.
Proof.
  eexists. eexists. split; [reflexivity |]. split; [reflexivity |].
  split; [reflexivity |].
  eapply (X13_repeating_generator_stops_on_cancel_only two_producers _ 0%nat).
  - exists blocked_schedule. reflexivity.
  - reflexivity.
  - intros n. discriminate.
  - reflexivity.
Defined.

(** ** Where the events come from *)

Lemma sends_generated_move (egs : list eventGenerator) (s : state) (t t' : task) :
  task_move s t t' -> sends_generated egs t -> sends_generated egs t'.
Proof.
  intros Hm [Hin Hsend]. split.
  - now rewrite (task_move_eg _ _ _ Hm).
  - intros e He. rewrite (task_move_eg _ _ _ Hm).
    destruct Hm; simpl in He; try discriminate He; try congruence.
    injection He as <-. eauto.
Qed.

Lemma pushes_generated (egs : list eventGenerator) (sched : list label) (s : state) :
  (forall i t, tasks s !! i = Some t -> sends_generated egs t) ->
  forall e, e ∈ pushes sched s ->
            exists g n, g ∈ egs /\ Generate g n = inl e.
Proof.
  revert s. induction sched as [|l sched IH]; intros s HP e He; simpl in He.
  - inversion He.
  - destruct (step l s) as [s1|] eqn:Hs; [| inversion He].
    apply elem_of_app in He as [He | He].
    + unfold pushed_by in He.
      destruct l as [|i|i|i|i| | | |]; try (inversion He; fail).
      destruct (tasks s !! i) as [t|] eqn:Ht; [| inversion He].
      destruct (pc t) as [|e'|] eqn:Hpc; try (inversion He; fail).
      destruct (chClosed s); [inversion He |].
      apply list_elem_of_singleton in He as ->.
      destruct (HP _ _ Ht) as [Hin Hsend].
      destruct (Hsend _ Hpc) as [n Hn]. eauto.
    + apply (IH s1); [| exact He].
      intros i t' Ht'.
      destruct (step_task_from _ _ _ _ _ Hs Ht') as (t & Ht & [-> | Hm]);
        eauto using sends_generated_move.
Qed.

(** X14. Every event the writer received from the channel, and every
    event waiting in its buffer, was returned by [Generate] of one of the
    generators the session was configured with. *)
Theorem X14_only_generated_events_are_delivered :
  forall cs egs s0 sched s e,
    content cs = inr s0 -> eventGenerators cs = Some egs ->
    run sched s0 = Some s ->
    e ∈ receipts sched s0 ++ ch s ->
    exists g n, g ∈ egs /\ Generate g n = inl e.
Proof.
  intros cs egs s0 sched s e H0 He Hrun Hin.
  destruct (content_initial _ _ H0) as (egs' & l & He' & _ & Hs0).
  assert (egs' = egs) as -> by congruence.
  pose proof (run_fifo _ _ _ Hrun) as Hq.
  rewrite <- Hq in Hin. rewrite Hs0 in Hin at 1. simpl in Hin.
  apply (pushes_generated egs sched s0); [| exact Hin].
  intros i t Ht. rewrite Hs0 in Ht. simpl in Ht.
  rewrite list_lookup_fmap in Ht.
  destruct (egs !! i) as [g|] eqn:Hg; [| discriminate Ht].
  injection Ht as <-. split.
  - simpl. eapply list_elem_of_lookup_2; eauto.
  - intros e' Hpc. discriminate Hpc.
Qed.

(** The event the clean session delivered is the one its generator
    returns. *)
Lemma X14_clean_session_witness :
  exists s0 s,
    content clean_session = inr s0
    /\ run clean_schedule s0 = Some s
    /\ receipts clean_schedule s0 ++ ch s = [ping]
    /\ exists g n, g ∈ [always ping 0%Z] /\ Generate g n = inl ping.
Proof.
  pose (s0 := {| ctxDone := false; ch := []; chClosed := false;
                 tasks := spawn <$> [always ping 0%Z];
                 main := AtStream; rw := fresh true;
                 lg := {| entries := [] |}; panicked := false |}).
  exists s0. eexists. split; [reflexivity |]. split; [reflexivity |].
  split; [reflexivity |].
  eapply (X14_only_generated_events_are_delivered
            clean_session [always ping 0%Z] s0 clean_schedule).
  - reflexivity.
  - reflexivity.
  - reflexivity.
  - vm_compute. apply list_elem_of_In. left. reflexivity.
Defined.

Lemma initial_sends_generated (cs : contentStreamer) (egs : list eventGenerator)
    (s0 : state) (i : nat) (t : task) :
  content cs = inr s0 -> eventGenerators cs = Some egs ->
  tasks s0 !! i = Some t -> sends_generated egs t.
Proof.
  intros H0 He Ht.
  destruct (spawned_tasks _ _ _ _ H0 Ht) as (egs' & g & He' & Hg & ->).
  assert (egs' = egs) as -> by congruence.
  split.
  - simpl. eapply list_elem_of_lookup_2; eauto.
  - intros e Hpc. discriminate Hpc.
Qed.

Lemma no_elements {A : Type} (l : list A) : (forall x, x ∈ l -> False) -> l = [].
Proof.
  destruct l as [|a l]; [reflexivity |].
  intros H. exfalso. apply (H a). left.
Qed.

(** X15. A session whose generators all fail at every call delivers
    nothing: no event is ever pushed into the channel, the buffer stays
    empty, and on a sink that can flush the response body stays as the
    sink had it. *)
Theorem X15_failing_generators_deliver_nothing :
  forall cs egs s0 sched s,
    content cs = inr s0 -> eventGenerators cs = Some egs ->
    (forall g, g ∈ egs -> always_fails g) ->
    run sched s0 = Some s ->
    pushes sched s0 = [] /\ ch s = []
    /\ (isFlusher (w cs) = true -> body (rw s) = body (w cs)).
Proof.
  intros cs egs s0 sched s H0 He Hfail Hrun.
  assert (Hp : pushes sched s0 = []).
  { apply no_elements. intros e Hin.
    destruct (pushes_generated egs sched s0) with (e := e) as (g & n & Hg & Hn);
      [intros i t Ht; eapply initial_sends_generated; eauto | exact Hin |].
    destruct (Hfail g Hg n) as [err Herr]. congruence. }
  pose proof (run_fifo _ _ _ Hrun) as Hq.
  destruct (content_initial _ _ H0) as (egs' & l & _ & _ & Hs0).
  rewrite Hp in Hq. rewrite Hs0 in Hq at 1. simpl in Hq.
  symmetry in Hq. apply app_eq_nil in Hq as [Hr Hc].
  split; [exact Hp |]. split; [exact Hc |].
  intros Hf.
  assert (Hw : rw s0 = w cs) by (rewrite Hs0; reflexivity).
  rewrite <- Hw, (run_body _ _ _ Hrun) by (now rewrite Hw).
  rewrite Hr. simpl. apply append_nil_r.
Qed.

(** The failing generator logged its error and delivered nothing. *)
Lemma X15_failing_session_witness :
  exists s0 s,
    content (failing_session 0%Z) = inr s0
    /\ run [StreamBegin; TimerFires 0; TaskTick 0; Cancel; TaskDone 0;
            StreamDone; WaitClose] s0 = Some s
    /\ main s = Returned None
    /\ entries (lg s) = ["event generator error: boom"]
    /\ ch s = []
    /\ body (rw s) = EmptyString.
Proof.
  pose (s0 := {| ctxDone := false; ch := []; chClosed := false;
                 tasks := spawn <$> [failing "boom" 0%Z];
                 main := AtStream; rw := fresh true;
                 lg := {| entries := [] |}; panicked := false |}).
  exists s0. eexists. split; [reflexivity |]. split; [reflexivity |].
  split; [reflexivity |]. split; [reflexivity |].
  match goal with
  | |- ch ?s = [] /\ _ =>
      destruct (X15_failing_generators_deliver_nothing
                  (failing_session 0%Z) [failing "boom" 0%Z] s0
                  [StreamBegin; TimerFires 0; TaskTick 0; Cancel; TaskDone 0;
                   StreamDone; WaitClose] s eq_refl eq_refl)
        as (_ & Hc & Hb)
  end.
  - intros g Hg. apply list_elem_of_singleton in Hg as ->.
    intros n. exists "boom". reflexivity.
  - reflexivity.
  - split; [exact Hc | apply Hb; reflexivity].
Defined.

(** ** A sink that cannot flush *)

Lemma no_flusher_step (l : label) (s s' : state) :
  step l s = Some s' ->
  main s <> InStreamLoop -> isFlusher (rw s) = false ->
  received_by l s = []
  /\ main s' <> InStreamLoop /\ isFlusher (rw s') = false.
Proof.
  intros H Hm Hf. unfold step in H.
  destruct (panicked s); [discriminate H |].
  destruct l as [|i|i|i|i| | | |]; simpl received_by.
  - destruct (ctxDone s); [discriminate H |]. now injection H as <-.
  - destruct (tasks s !! i) as [t|]; [| discriminate H].
    destruct (pc t), (tmr t); try discriminate H. now injection H as <-.
  - destruct (tasks s !! i) as [t|]; [| discriminate H].
    destruct (pc t); try discriminate H.
    destruct (ctxDone s); [| discriminate H]. now injection H as <-.
  - destruct (tasks s !! i) as [t|]; [| discriminate H].
    destruct (pc t), (tmr t); try discriminate H. injection H as <-.
    unfold tick. now destruct (Generate (eg t) (ncalls t)).
  - destruct (tasks s !! i) as [t|]; [| discriminate H].
    destruct (pc t); try discriminate H.
    destruct (chClosed s); [now injection H as <- |].
    destruct (length (ch s) <? chCap)%nat; [| discriminate H].
    injection H as <-. unfold sent.
    now destruct (RunEvery (eg t) (ncalls t) =? 0)%Z.
  - destruct (main s); try discriminate H.
    unfold stream_begin in H. rewrite Hf in H. injection H as <-.
    simpl. repeat split; auto; discriminate.
  - destruct (main s); try discriminate H. contradiction.
  - destruct (main s), (ch s); try discriminate H; contradiction.
  - destruct (main s); try discriminate H.
    destruct (wg_zero s); [| discriminate H]. injection H as <-.
    simpl. repeat split; auto; discriminate.
Qed.

Lemma no_flusher_receipts (sched : list label) (s : state) :
  main s <> InStreamLoop -> isFlusher (rw s) = false ->
  receipts sched s = [].
Proof.
  revert s. induction sched as [|l sched IH]; intros s Hm Hf; simpl; [reflexivity |].
  destruct (step l s) as [s1|] eqn:Hs; [| reflexivity].
  destruct (no_flusher_step _ _ _ Hs Hm Hf) as (-> & Hm1 & Hf1).
  now apply IH.
Qed.

(** X16. In a session whose sink cannot flush, the writer never takes an
    event out of the channel: the channel accepts one event at most, the
    one that stays in its buffer, and the response is the sink as it was
    or the sink followed by the calls of [http.Error]. *)
Theorem X16_unsupported_sink_never_drains :
  forall cs s0 sched s,
    content cs = inr s0 -> isFlusher (w cs) = false ->
    run sched s0 = Some s ->
    receipts sched s0 = []
    /\ pushes sched s0 = ch s
    /\ (length (pushes sched s0) <= 1)%nat
    /\ (calls (rw s) = calls (w cs)
        \/ calls (rw s) = calls (w cs) ++ unsupported_calls).
Proof.
  intros cs s0 sched s H0 Hf Hrun.
  destruct (content_initial _ _ H0) as (egs & l & _ & _ & Hs0).
  assert (Hr : receipts sched s0 = []).
  { apply no_flusher_receipts; rewrite Hs0; simpl; [discriminate | exact Hf]. }
  pose proof (run_fifo _ _ _ Hrun) as Hq.
  rewrite Hr in Hq. rewrite Hs0 in Hq at 1. simpl in Hq.
  split; [exact Hr |]. split; [exact Hq |].
  split.
  { rewrite Hq.
    apply (run_invariant (fun x => (length (ch x) <= chCap)%nat))
      with (sched := sched) (s := s0); [| | exact Hrun].
    - intros k x x' Hx Hk. eapply step_ch_bound; eauto.
    - rewrite Hs0. unfold chCap. simpl. lia. }
  assert (Hreach : reachable cs s).
  { exists sched. unfold exec. now rewrite H0. }
  pose proof (session_response_is_stream _ _ Hreach) as Hresp.
  unfold response_follows_stream in Hresp.
  destruct (w cs) as [f c0] eqn:Hw. simpl in Hf. subst f.
  destruct (main s).
  - left. now rewrite Hresp.
  - destruct Hresp as [Hx _]. discriminate Hx.
  - right. destruct Hresp as [sel ->]. apply calls_stream_no_flusher.
  - right. destruct Hresp as [sel ->]. apply calls_stream_no_flusher.
Qed.

(** Two generators on a sink that cannot flush: one event stays in the
    buffer, the response is the error of [http.Error]. *)
Lemma X16_unsupported_session_witness :
  exists s0 s,
    content (session false (Some [always ping 0%Z; always ping 0%Z])) = inr s0
    /\ run [StreamBegin; TimerFires 0; TaskTick 0; TaskSend 0;
            TimerFires 1; TaskTick 1] s0 = Some s
    /\ ch s = [ping]
    /\ step (TaskSend 1) s = None
    /\ receipts [StreamBegin; TimerFires 0; TaskTick 0; TaskSend 0;
                 TimerFires 1; TaskTick 1] s0 = []
    /\ calls (rw s) = unsupported_calls.
Proof.
  pose (s0 := {| ctxDone := false; ch := []; chClosed := false;
                 tasks := spawn <$> [always ping 0%Z; always ping 0%Z];
                 main := AtStream; rw := fresh false;
                 lg := {| entries := [] |}; panicked := false |}).
  exists s0. eexists. split; [reflexivity |]. split; [reflexivity |].
  split; [reflexivity |]. split; [reflexivity |].
  match goal with
  | |- _ /\ calls (rw ?s) = _ =>
      destruct (X16_unsupported_sink_never_drains
                  (session false (Some [always ping 0%Z; always ping 0%Z])) s0
                  [StreamBegin; TimerFires 0; TaskTick 0; TaskSend 0;
                   TimerFires 1; TaskTick 1] s eq_refl eq_refl eq_refl)
        as (Hr & _ & _ & _)
  end.
  split; [exact Hr | reflexivity].
Defined.

(** ** When a session stops moving *)

Lemma forallb_false_lookup {A : Type} (f : A -> bool) (l : list A) :
  forallb f l = false -> exists i x, l !! i = Some x /\ f x = false.
Proof.
  induction l as [|a l IH]; simpl; [discriminate |].
  destruct (f a) eqn:Ha; simpl.
  - intros H. destruct (IH H) as (i & x & Hi & Hx). exists (S i), x. auto.
  - intros _. exists 0%nat, a. auto.
Qed.

(** X17. A session that can make no move has either returned from
    [content], with nil, or is blocked in the one way left: the context is
    cancelled, [content] waits in [wg.Wait], the buffer is full, every
    goroutine has terminated or is suspended in its send, and at least
    one is suspended. *)
Theorem X17_stuck_is_returned_or_blocked_send :
  forall cs s,
    reachable cs s -> stuck s ->
    main s = Returned None
    \/ (main s = AtWait /\ ctxDone s = true /\ length (ch s) = 1%nat
        /\ (exists i t e, tasks s !! i = Some t /\ pc t = AtSend e)
        /\ forall i t, tasks s !! i = Some t ->
                       pc t = Exited \/ exists e, pc t = AtSend e).
Proof.
  intros cs s Hr Hstuck.
  destruct (reachable_shutdown_ordered _ _ Hr) as (Hp & Hc & _).
  assert (Hbound : (length (ch s) <= chCap)%nat).
  { destruct Hr as [sched H]. apply exec_inr in H as (s0 & H0 & Hrun).
    apply (run_invariant (fun x => (length (ch x) <= chCap)%nat))
      with (sched := sched) (s := s0); [| | exact Hrun].
    - intros k x x' Hx Hk. eapply step_ch_bound; eauto.
    - destruct (content_initial _ _ H0) as (egs & l & _ & _ & ->).
      unfold chCap. simpl. lia. }
  assert (Hd : ctxDone s = true).
  { pose proof (Hstuck Cancel) as H. unfold step in H. rewrite Hp in H.
    destruct (ctxDone s); [reflexivity | discriminate H]. }
  destruct (main s) as [| | |err] eqn:Hm.
  - pose proof (Hstuck StreamBegin) as H. unfold step in H.
    rewrite Hp, Hm in H. destruct (stream_begin (rw s)). discriminate H.
  - pose proof (Hstuck StreamDone) as H. unfold step in H.
    rewrite Hp, Hm, Hd in H. discriminate H.
  - right.
    assert (Hopen : chClosed s = false).
    { destruct (chClosed s) eqn:Hcl; [| reflexivity].
      destruct (Hc eq_refl) as [_ Hm']. congruence. }
    assert (Hz : wg_zero s = false).
    { pose proof (Hstuck WaitClose) as H. unfold step in H.
      rewrite Hp, Hm in H. destruct (wg_zero s); [discriminate H | reflexivity]. }
    assert (Hall : forall i t, tasks s !! i = Some t ->
                               pc t = Exited \/ exists e, pc t = AtSend e).
    { intros i t Ht. destruct (pc t) as [|e|] eqn:Hpc; eauto.
      pose proof (Hstuck (TaskDone i)) as H. unfold step in H.
      rewrite Hp, Ht, Hpc, Hd in H. discriminate H. }
    apply forallb_false_lookup in Hz as (i & t & Ht & Hx).
    assert (Hsend : exists e, pc t = AtSend e).
    { destruct (Hall _ _ Ht) as [He | He]; [| exact He].
      unfold is_Exited in Hx. rewrite He in Hx. discriminate Hx. }
    destruct Hsend as [e Hpc].
    repeat split; auto; [| eauto].
    pose proof (Hstuck (TaskSend i)) as H. unfold step in H.
    rewrite Hp, Ht, Hpc, Hopen in H.
    destruct (length (ch s) <? chCap)%nat eqn:Hlt; [discriminate H |].
    apply Nat.ltb_ge in Hlt. unfold chCap in *. lia.
  - left. destruct (returned_nil _ _ _ Hr Hm) as [-> _]. reflexivity.
Qed.

(** The two generators left blocked after the cancellation. *)
Lemma X17_blocked_session_witness :
  exists s,
    exec two_producers blocked_schedule = Some s
    /\ main s = AtWait /\ ctxDone s = true /\ length (ch s) = 1%nat.
Proof.
  eexists. split; [reflexivity |].
  match goal with
  | |- main ?s = _ /\ _ =>
      destruct (X17_stuck_is_returned_or_blocked_send two_producers s)
        as [H | (H1 & H2 & H3 & _)]
  end.
  - exists blocked_schedule. reflexivity.
  - intros l. destruct l as [|i|i|i|i| | | |]; try reflexivity;
      destruct i as [|[|i]]; reflexivity.
  - discriminate H.
  - auto.
Defined.

(** * The generators of the package *)

(** X18. What a content generator returns is what its collaborators
    return: an event exactly when the content function and the encoding
    both succeed, without a name and with the encoded response as payload,
    so that [stream] writes it as one data field and no event field; its
    interval is the one it was built with. *)
Theorem X18_content_event_on_the_wire :
  forall (CR : Type) (marshal : CR -> list byte + error)
         (fn : nat -> CR + error) (d : Duration) (n : nat) (e : event),
    Generate (contentEventGenerator CR marshal fn d) n = inl e ->
    (exists resp, fn n = inl resp /\ marshal resp = inl (data e))
    /\ RunEvery (contentEventGenerator CR marshal fn d) n = d
    /\ forall x,
         calls (stream_event x e)
         = calls x ++ [Write ("data: " +:+ string_of_bytes (data e) +:+ LF +:+ LF);
                       Flush].
Proof.
  intros CR marshal fn d n e H. simpl in H.
  destruct (fn n) as [resp | err] eqn:Hfn; [| discriminate H].
  destruct (marshal resp) as [b | err] eqn:Hm; [| discriminate H].
  injection H as <-.
  split; [exists resp; split; [reflexivity | exact Hm] |].
  split; [reflexivity |].
  intros x. rewrite calls_stream_event. reflexivity.
Qed.

(** A content generator over a one-value response. *)
Lemma X18_content_generator_witness :
  Generate (contentEventGenerator unit (fun _ => inl (bytes "{}"))
              (fun _ => inl tt) (5 * Second)%Z) 0
  = inl ping
  /\ forall x,
       calls (stream_event x ping)
       = calls x ++ [Write ("data: " +:+ string_of_bytes (data ping) +:+ LF +:+ LF);
                     Flush].
Proof.
  split; [reflexivity |].
  apply (X18_content_event_on_the_wire unit (fun _ => inl (bytes "{}"))
           (fun _ => inl tt) (5 * Second)%Z 0 ping).
  reflexivity.
Defined.



(** X20. A generator of the package fails exactly when one of its
    collaborators fails, with that collaborator's error: the error of
    the content function or of the sections if there is one, otherwise
    the error of the encoding. *)
Theorem X20_generator_errors_are_collaborator_errors :
  forall (A : Type) (marshal : A -> list byte + error)
         (fn : nat -> A + error) (d : Duration) (n : nat) (err : error),
    (Generate (contentEventGenerator A marshal fn d) n = inr err
     <-> fn n = inr err \/ exists resp, fn n = inl resp /\ marshal resp = inr err)
    /\ (Generate (navigationEventGenerator A marshal fn) n = inr err
        <-> fn n = inr err \/ exists ns, fn n = inl ns /\ marshal ns = inr err).
Proof.
  intros A marshal fn d n err. simpl.
  destruct (fn n) as [a | e1] eqn:Hfn.
  - destruct (marshal a) as [b | e2] eqn:Hm; split; split; intros H.
    all: try discriminate H.
    all: try (destruct H as [H | (a' & Ha & H)];
              [discriminate H | injection Ha as <-; congruence]).
    all: right; exists a; split; [reflexivity | congruence].
  - split; split; intros H.
    all: try (injection H as <-; left; reflexivity).
    all: destruct H as [H | (a' & Ha & _)];
      [injection H as <-; reflexivity | discriminate Ha].
Qed.

(** * Shutting down *)

Lemma run_app (a b : list label) (s s1 s2 : state) :
  run a s = Some s1 -> run b s1 = Some s2 -> run (a ++ b) s = Some s2.
Proof.
  revert s. induction a as [|l a IH]; intros s Ha Hb; simpl in *.
  - now injection Ha as ->.
  - destruct (step l s) as [x|]; [eauto | discriminate Ha].
Qed.

Lemma step_TaskDone (i : nat) (t : task) (s : state) :
  panicked s = false -> tasks s !! i = Some t -> pc t = AtSelect ->
  ctxDone s = true ->
  step (TaskDone i) s = Some (set_task i (with_pc Exited t) s).
Proof. intros Hp Ht Hpc Hd. unfold step. now rewrite Hp, Ht, Hpc, Hd. Qed.

Lemma step_TaskSend (i : nat) (t : task) (e : event) (s : state) :
  panicked s = false -> chClosed s = false -> ch s = [] ->
  tasks s !! i = Some t -> pc t = AtSend e ->
  step (TaskSend i) s = Some (sent i e t s).
Proof.
  intros Hp Hc Hq Ht Hpc. unfold step. now rewrite Hp, Ht, Hpc, Hc, Hq.
Qed.

Lemma step_StreamRecv (e : event) (q : list event) (s : state) :
  panicked s = false -> main s = InStreamLoop -> ch s = e :: q ->
  step StreamRecv s = Some (set_rw (stream_event (rw s) e) (set_ch q s)).
Proof. intros Hp Hm Hq. unfold step. now rewrite Hp, Hm, Hq. Qed.

Lemma step_StreamDone (s : state) :
  panicked s = false -> main s = InStreamLoop -> ctxDone s = true ->
  step StreamDone s = Some (set_main AtWait s).
Proof. intros Hp Hm Hd. unfold step. now rewrite Hp, Hm, Hd. Qed.

Lemma step_WaitClose (s : state) :
  panicked s = false -> main s = AtWait -> wg_zero s = true ->
  step WaitClose s = Some (set_main (Returned None) (close_ch s)).
Proof. intros Hp Hm Hz. unfold step. now rewrite Hp, Hm, Hz. Qed.

(** With the writer in its loop the buffer can be emptied. *)
Lemma drain_buffer (s : state) :
  draining s ->
  exists sched s',
    run sched s = Some s' /\ draining s' /\ ch s' = []
    /\ tasks s' = tasks s /\ ctxDone s' = ctxDone s.
Proof.
  intros (Hm & Hp & Hc & Hb).
  destruct (ch s) as [|e q] eqn:Hq.
  - exists [], s. repeat split; auto. rewrite Hq. simpl. lia.
  - assert (q = []) as ->.
    { destruct q; [reflexivity |]. unfold chCap in Hb. simpl in Hb. lia. }
    exists [StreamRecv], (set_rw (stream_event (rw s) e) (set_ch [] s)).
    split; [simpl; now rewrite (step_StreamRecv e [] s) |].
    repeat split; auto. simpl. lia.
Qed.

(** With the writer in its loop and the context cancelled, any one
    goroutine can be brought to its end, the others left as they are. *)
Lemma exit_one (s : state) (i : nat) (t : task) :
  draining s -> ctxDone s = true -> tasks s !! i = Some t ->
  exists sched s' t',
    run sched s = Some s' /\ draining s' /\ ctxDone s' = true
    /\ tasks s' = <[i := t']> (tasks s) /\ pc t' = Exited.
Proof.
  intros Hdr Hd Ht. pose proof Hdr as (Hm & Hp & Hc & Hb).
  destruct (pc t) as [|e|] eqn:Hpc.
  - exists [TaskDone i], (set_task i (with_pc Exited t) s), (with_pc Exited t).
    split; [simpl; now rewrite (step_TaskDone i t s) |].
    repeat split; auto.
  - destruct (drain_buffer s Hdr) as (sch0 & s1 & Hrun0 & Hdr1 & Hq1 & Ht1 & Hd1).
    destruct Hdr1 as (Hm1 & Hp1 & Hc1 & Hb1).
    assert (Hl1 : tasks s1 !! i = Some t) by (now rewrite Ht1).
    assert (Hsend : step (TaskSend i) s1 = Some (sent i e t s1))
      by (now apply step_TaskSend).
    unfold sent in Hsend.
    destruct (RunEvery (eg t) (ncalls t) =? 0)%Z.
    + eexists (sch0 ++ [TaskSend i]), _, (with_pc Exited t).
      split; [eapply run_app; [exact Hrun0 | simpl; rewrite Hsend; reflexivity] |].
      split; [repeat split; simpl; auto; rewrite Hq1; unfold chCap; simpl; lia |].
      split; [simpl; congruence |].
      split; [simpl; now rewrite Ht1 | reflexivity].
    + set (t2 := with_pc AtSelect (with_tmr (Armed (RunEvery (eg t) (ncalls t))) t)) in *.
      set (s2 := set_task i t2 (set_ch (ch s1 ++ [e]) s1)) in *.
      assert (Hl2 : tasks s2 !! i = Some t2).
      { simpl. apply list_lookup_insert_eq. eapply lookup_lt_Some; eauto. }
      assert (Hdone : step (TaskDone i) s2 = Some (set_task i (with_pc Exited t2) s2)).
      { apply step_TaskDone; auto. simpl. congruence. }
      eexists (sch0 ++ [TaskSend i; TaskDone i]), _, (with_pc Exited t2).
      split; [eapply run_app; [exact Hrun0 | simpl; rewrite Hsend, Hdone; reflexivity] |].
      split; [repeat split; simpl; auto; rewrite Hq1; unfold chCap; simpl; lia |].
      split; [simpl; congruence |].
      split; [| reflexivity].
      simpl. rewrite list_insert_insert_eq. now rewrite Ht1.
  - exists [], s, t. repeat split; auto.
    symmetry. now apply list_insert_id.
Qed.

Lemma exit_first (k : nat) (s : state) :
  draining s -> ctxDone s = true ->
  exists sched s',
    run sched s = Some s' /\ draining s' /\ ctxDone s' = true
    /\ length (tasks s') = length (tasks s)
    /\ forall i t, (i < k)%nat -> tasks s' !! i = Some t -> pc t = Exited.
Proof.
  intros Hdr Hd. induction k as [|k IH].
  - exists [], s. split; [reflexivity |]. split; [exact Hdr |].
    split; [exact Hd |]. split; [reflexivity |]. intros i t Hi. lia.
  - destruct IH as (sch1 & s1 & Hrun1 & Hdr1 & Hd1 & Hlen1 & Hex1).
    destruct (tasks s1 !! k) as [t|] eqn:Hk.
    + destruct (exit_one s1 k t Hdr1 Hd1 Hk)
        as (sch2 & s2 & t' & Hrun2 & Hdr2 & Hd2 & Ht2 & Hpc2).
      exists (sch1 ++ sch2), s2.
      split; [eapply run_app; eauto |].
      split; [exact Hdr2 |]. split; [exact Hd2 |].
      split; [rewrite Ht2, length_insert; exact Hlen1 |].
      intros i t0 Hi Hl. rewrite Ht2 in Hl.
      destruct (decide (i = k)) as [-> | Hne].
      * rewrite list_lookup_insert_eq in Hl by (eapply lookup_lt_Some; eauto).
        now injection Hl as <-.
      * rewrite list_lookup_insert_ne in Hl by auto.
        apply (Hex1 i); [lia | exact Hl].
    + exists sch1, s1. split; [exact Hrun1 |]. split; [exact Hdr1 |].
      split; [exact Hd1 |]. split; [exact Hlen1 |].
      intros i t0 Hi Hl.
      destruct (decide (i = k)) as [-> | Hne]; [congruence |].
      apply (Hex1 i); [lia | exact Hl].
Qed.

Lemma all_exited_wg_zero (s : state) :
  (forall i t, tasks s !! i = Some t -> pc t = Exited) -> wg_zero s = true.
Proof.
  intros H. unfold wg_zero. apply forallb_forall. intros t Hin.
  apply list_elem_of_In, list_elem_of_lookup in Hin as [i Hi].
  unfold is_Exited. now rewrite (H i t Hi).
Qed.

(** From a draining state with the context cancelled, [content] can
    return. *)
Lemma cancelled_drain_returns (s : state) :
  draining s -> ctxDone s = true ->
  exists sched s', run sched s = Some s' /\ main s' = Returned None.
Proof.
  intros Hdr Hd.
  destruct (exit_first (length (tasks s)) s Hdr Hd)
    as (sch & s1 & Hrun & (Hm1 & Hp1 & Hc1 & Hb1) & Hd1 & Hlen & Hex).
  assert (Hz : wg_zero s1 = true).
  { apply all_exited_wg_zero. intros i t Hi. apply (Hex i t); [| exact Hi].
    apply lookup_lt_Some in Hi. lia. }
  exists (sch ++ [StreamDone; WaitClose]),
         (set_main (Returned None) (close_ch (set_main AtWait s1))).
  split; [| reflexivity].
  eapply run_app; [exact Hrun |].
  simpl. rewrite (step_StreamDone s1) by assumption.
  now rewrite (step_WaitClose (set_main AtWait s1)).
Qed.

(** X21. As long as the writer is in its loop a clean shutdown is within
    reach: from every state a session reaches there, some schedule takes
    [content] to its return, with nil. *)
Theorem X21_clean_shutdown_is_reachable :
  forall cs s,
    reachable cs s -> main s = InStreamLoop ->
    exists sched s', run sched s = Some s' /\ main s' = Returned None.
Proof.
  intros cs s Hr Hm.
  destruct (reachable_shutdown_ordered _ _ Hr) as (Hp & Hc & _).
  assert (Hdr : draining s).
  { split; [exact Hm |]. split; [exact Hp |]. split.
    - destruct (chClosed s) eqn:Hcl; [| reflexivity].
      destruct (Hc eq_refl) as [_ Hm']. congruence.
    - destruct Hr as [sched H]. apply exec_inr in H as (s0 & H0 & Hrun).
      apply (run_invariant (fun x => (length (ch x) <= chCap)%nat))
        with (sched := sched) (s := s0); [| | exact Hrun].
      + intros k x x' Hx Hk. eapply step_ch_bound; eauto.
      + destruct (content_initial _ _ H0) as (egs & l & _ & _ & ->).
        unfold chCap. simpl. lia. }
  destruct (ctxDone s) eqn:Hd.
  - now apply cancelled_drain_returns.
  - destruct (cancelled_drain_returns (cancel s)) as (sch & s' & Hrun & Hret).
    + destruct Hdr as (H1 & H2 & H3 & H4). repeat split; auto.
    + reflexivity.
    + exists (Cancel :: sch), s'. split; [| exact Hret].
      simpl. unfold step. now rewrite Hp, Hd.
Qed.

(** The session with an event queued at cancellation can still return. *)
Lemma X21_queued_session_witness :
  exists s,
    exec one_producer queued_then_cancelled = Some s
    /\ main s = InStreamLoop
    /\ exists sched s', run sched s = Some s' /\ main s' = Returned None.
Proof.
  eexists. split; [reflexivity |]. split; [reflexivity |].
  apply (X21_clean_shutdown_is_reachable one_producer).
  - exists queued_then_cancelled. reflexivity.
  - reflexivity.
Defined.

(** * The log and the other goroutines *)

Lemma step_log (l : label) (s s' : state) :
  step l s = Some s' ->
  entries (lg s') = entries (lg s)
  \/ exists i t err,
       tasks s !! i = Some t /\ Generate (eg t) (ncalls t) = inr err
       /\ entries (lg s') = entries (lg s) ++ [error_entry err].
Proof.
  intros H. unfold step in H.
  destruct (panicked s); [discriminate H |].
  destruct l as [|i|i|i|i| | | |].
  - destruct (ctxDone s); [discriminate H |]. injection H as <-. now left.
  - destruct (tasks s !! i) as [t|]; [| discriminate H].
    destruct (pc t), (tmr t); try discriminate H. injection H as <-. now left.
  - destruct (tasks s !! i) as [t|]; [| discriminate H].
    destruct (pc t); try discriminate H.
    destruct (ctxDone s); [| discriminate H]. injection H as <-. now left.
  - destruct (tasks s !! i) as [t|] eqn:Ht; [| discriminate H].
    destruct (pc t), (tmr t); try discriminate H. injection H as <-.
    unfold tick. destruct (Generate (eg t) (ncalls t)) as [e | err] eqn:Hg.
    + now left.
    + right. exists i, t, err. auto.
  - destruct (tasks s !! i) as [t|]; [| discriminate H].
    destruct (pc t); try discriminate H.
    destruct (chClosed s); [injection H as <-; now left |].
    destruct (length (ch s) <? chCap)%nat; [| discriminate H].
    injection H as <-. unfold sent.
    destruct (RunEvery (eg t) (ncalls t) =? 0)%Z; now left.
  - destruct (main s); try discriminate H.
    destruct (stream_begin (rw s)) as [x b]. injection H as <-. now left.
  - destruct (main s); try discriminate H.
    destruct (ctxDone s); [| discriminate H]. injection H as <-. now left.
  - destruct (main s), (ch s); try discriminate H. injection H as <-. now left.
  - destruct (main s); try discriminate H.
    destruct (wg_zero s); [| discriminate H]. injection H as <-. now left.
Qed.

Lemma run_log (egs : list eventGenerator) (sched : list label) (s s' : state) :
  (forall i t, tasks s !! i = Some t -> eg t ∈ egs) ->
  run sched s = Some s' ->
  exists errs,
    entries (lg s') = entries (lg s) ++ (error_entry <$> errs)
    /\ Forall (fun err => exists g n, g ∈ egs /\ Generate g n = inr err) errs.
Proof.
  revert s. induction sched as [|l sched IH]; intros s Hin Hrun; simpl in Hrun.
  - injection Hrun as <-. exists []. split; [now rewrite app_nil_r | constructor].
  - destruct (step l s) as [s1|] eqn:Hs; [| discriminate Hrun].
    assert (Hin1 : forall i t, tasks s1 !! i = Some t -> eg t ∈ egs).
    { intros i t' Ht'.
      destruct (step_task_from _ _ _ _ _ Hs Ht') as (t & Ht & [-> | Hm]).
      - eauto.
      - rewrite (task_move_eg _ _ _ Hm). eauto. }
    destruct (IH s1 Hin1 Hrun) as (errs & He & Hf).
    destruct (step_log _ _ _ Hs) as [Hl | (i & t & err & Ht & Hg & Hl)].
    + exists errs. split; [now rewrite He, Hl | exact Hf].
    + exists (err :: errs). split.
      * rewrite He, Hl, <- app_assoc. reflexivity.
      * constructor; [| exact Hf]. exists (eg t), (ncalls t). eauto.
Qed.

(** X22. The logger receives nothing but generator errors: at every
    point of a session the log is the log it started with followed by one
    entry of the form of line 142 for each of a sequence of errors that
    the generators of the session returned. *)
Theorem X22_log_holds_generator_errors_only :
  forall cs egs l0 s0 sched s,
    content cs = inr s0 -> eventGenerators cs = Some egs ->
    logger cs = Some l0 -> run sched s0 = Some s ->
    exists errs,
      entries (lg s) = entries l0 ++ (error_entry <$> errs)
      /\ Forall (fun err => exists g n, g ∈ egs /\ Generate g n = inr err) errs.
Proof.
  intros cs egs l0 s0 sched s H0 He Hl Hrun.
  destruct (run_log egs sched s0 s) as (errs & Hent & Hf); [| exact Hrun |].
  - intros i t Ht. eapply initial_sends_generated; eauto.
  - exists errs. split; [| exact Hf].
    destruct (content_initial _ _ H0) as (egs' & l & _ & Hl' & Hs0).
    rewrite Hent, Hs0. simpl. congruence.
Qed.

(** The failing generator left one entry in the log. *)
Lemma X22_failing_session_witness :
  exists s0 s,
    content (failing_session 0%Z) = inr s0
    /\ run [StreamBegin; TimerFires 0; TaskTick 0] s0 = Some s
    /\ entries (lg s) = [error_entry "boom"]
    /\ exists errs,
         entries (lg s) = [] ++ (error_entry <$> errs)
         /\ Forall (fun err => exists g n, g ∈ [failing "boom" 0%Z]
                                           /\ Generate g n = inr err) errs.
Proof.
  pose (s0 := {| ctxDone := false; ch := []; chClosed := false;
                 tasks := spawn <$> [failing "boom" 0%Z];
                 main := AtStream; rw := fresh true;
                 lg := {| entries := [] |}; panicked := false |}).
  exists s0. eexists. split; [reflexivity |]. split; [reflexivity |].
  split; [reflexivity |].
  apply (X22_log_holds_generator_errors_only
           (failing_session 0%Z) [failing "boom" 0%Z] {| entries := [] |} s0
           [StreamBegin; TimerFires 0; TaskTick 0]); reflexivity.
Defined.

Lemma forallb_false_at {A : Type} (f : A -> bool) (l : list A) (i : nat) (x : A) :
  l !! i = Some x -> f x = false -> forallb f l = false.
Proof.
  revert i. induction l as [|a l IH]; intros [|i] Hi Hx; simpl in *; try discriminate.
  - injection Hi as ->. now rewrite Hx.
  - rewrite (IH i Hi Hx). apply andb_false_r.
Qed.

(** X23. A failed generation touches its own goroutine and the log and
    nothing else: the queue, the response and the other goroutines are as
    before, and every move that is not of the failing goroutine is enabled
    after the failure exactly when it was enabled before. *)
Theorem X23_failure_does_not_stall_the_others :
  forall s i t err,
    panicked s = false -> tasks s !! i = Some t ->
    pc t = AtSelect -> tmr t = Fired ->
    Generate (eg t) (ncalls t) = inr err ->
    exists s1,
      step (TaskTick i) s = Some s1
      /\ ch s1 = ch s /\ rw s1 = rw s /\ main s1 = main s
      /\ (forall j, j <> i -> tasks s1 !! j = tasks s !! j)
      /\ forall l, mover l <> Some i ->
                   (is_Some (step l s1) <-> is_Some (step l s)).
Proof.
  intros s i t err Hp Ht Hpc Htm Hg.
  eexists. split; [apply tick_error; eassumption |].
  split; [reflexivity |]. split; [reflexivity |]. split; [reflexivity |].
  split; [intros j Hj; simpl; now apply list_lookup_insert_ne |].
  intros l Hl.
  assert (Hz : wg_zero s = false).
  { eapply forallb_false_at; [exact Ht |]. unfold is_Exited. now rewrite Hpc. }
  assert (Hz1 : wg_zero (set_task i (called (with_tmr Drained t))
                           (set_lg (Errorf ("event generator error: " +:+ err) (lg s)) s))
                = false).
  { eapply forallb_false_at.
    - simpl. apply list_lookup_insert_eq. eapply lookup_lt_Some; eauto.
    - unfold is_Exited. simpl. now rewrite Hpc. }
  unfold step. rewrite Hz1, Hz. simpl. rewrite Hp.
  destruct l as [|j|j|j|j| | | |]; simpl in Hl;
    try (rewrite list_lookup_insert_ne by congruence);
    repeat match goal with
           | |- context [match ?x with _ => _ end] => destruct x
           end;
    split; intros [x Hx]; try discriminate Hx; eauto.
Qed.

(** One generator fails while the other has an event to send. *)
Lemma X23_mixed_session_witness :
  exists s,
    exec (session true (Some [failing "boom" (5 * Second)%Z;
                              always ping (5 * Second)%Z]))
         [StreamBegin; TimerFires 0; TimerFires 1; TaskTick 1] = Some s
    /\ exists s1,
         step (TaskTick 0) s = Some s1
         /\ is_Some (step (TaskSend 1) s1).
Proof.
  eexists. split; [reflexivity |].
  match goal with
  | |- exists s1, step _ ?s = _ /\ _ =>
      destruct (X23_failure_does_not_stall_the_others s 0%nat
                  {| eg := failing "boom" (5 * Second)%Z; ncalls := 0;
                     tmr := Fired; pc := AtSelect |} "boom"
                  eq_refl eq_refl eq_refl eq_refl eq_refl)
        as (s1 & H1 & _ & _ & _ & _ & H2)
  end.
  exists s1. split; [exact H1 |].
  apply (H2 (TaskSend 1)); [discriminate |].
  eexists. reflexivity.
Defined.

(** * [content] and the cancellation *)

Lemma returns_after_cancel_step (l : label) (s s' : state) :
  step l s = Some s' ->
  (main s = AtStream -> isFlusher (rw s) = true)
  /\ (stream_over s = true -> ctxDone s = true) ->
  (main s' = AtStream -> isFlusher (rw s') = true)
  /\ (stream_over s' = true -> ctxDone s' = true).
Proof.
  intros H [Hf Hd]. unfold stream_over in *. unfold step in H.
  destruct (panicked s); [discriminate H |].
  destruct l as [|i|i|i|i| | | |].
  - destruct (ctxDone s); [discriminate H |]. injection H as <-. simpl. auto.
  - destruct (tasks s !! i) as [t|]; [| discriminate H].
    destruct (pc t), (tmr t); try discriminate H. injection H as <-. simpl. auto.
  - destruct (tasks s !! i) as [t|]; [| discriminate H].
    destruct (pc t); try discriminate H.
    destruct (ctxDone s) eqn:Hc; [| discriminate H]. injection H as <-.
    simpl. auto.
  - destruct (tasks s !! i) as [t|]; [| discriminate H].
    destruct (pc t), (tmr t); try discriminate H. injection H as <-.
    unfold tick. destruct (Generate (eg t) (ncalls t)); simpl; auto.
  - destruct (tasks s !! i) as [t|]; [| discriminate H].
    destruct (pc t); try discriminate H.
    destruct (chClosed s); [injection H as <-; simpl; now auto |].
    destruct (length (ch s) <? chCap)%nat; [| discriminate H].
    injection H as <-. unfold sent.
    destruct (RunEvery (eg t) (ncalls t) =? 0)%Z; simpl; auto.
  - destruct (main s) eqn:Hm; try discriminate H.
    unfold stream_begin in H. rewrite (Hf eq_refl) in H. injection H as <-.
    simpl. split; intros Hx; discriminate Hx.
  - destruct (main s) eqn:Hm; try discriminate H.
    destruct (ctxDone s) eqn:Hc; [| discriminate H]. injection H as <-.
    simpl. split; [intros Hx; discriminate Hx | auto].
  - destruct (main s) eqn:Hm, (ch s); try discriminate H. injection H as <-.
    simpl. rewrite Hm. split; intros Hx; discriminate Hx.
  - destruct (main s) eqn:Hm; try discriminate H.
    destruct (wg_zero s); [| discriminate H]. injection H as <-.
    simpl. split; [intros Hx; discriminate Hx | auto].
Qed.

(** X24. On a sink that can flush, [content] stays inside [stream] until
    the context is cancelled: wherever the session is past [stream],
    waiting for its goroutines or returned, the context is cancelled. *)
Theorem X24_content_returns_after_cancel_only :
  forall cs s,
    reachable cs s -> isFlusher (w cs) = true ->
    stream_over s = true -> ctxDone s = true.
Proof.
  intros cs s [sched H] Hf. apply exec_inr in H as (s0 & H0 & Hrun).
  apply (run_invariant
           (fun x => (main x = AtStream -> isFlusher (rw x) = true)
                     /\ (stream_over x = true -> ctxDone x = true)))
    with (sched := sched) (s := s0); [| | exact Hrun].
  - intros l x x' Hx Hs. eapply returns_after_cancel_step; eauto.
  - destruct (content_initial _ _ H0) as (egs & l & _ & _ & ->).
    simpl. split; [auto | intros Hx; discriminate Hx].
Qed.

(** The clean session returned after its cancellation. *)
Lemma X24_clean_session_witness :
  exists s,
    exec clean_session clean_schedule = Some s
    /\ main s = Returned None /\ ctxDone s = true.
Proof.
  eexists. split; [reflexivity |]. split; [reflexivity |].
  apply (X24_content_returns_after_cancel_only clean_session).
  - exists clean_schedule. reflexivity.
  - reflexivity.
  - reflexivity.
Defined.
